(** * Store catalog of LearnNode-TS: controllers/storeController.ts

    A shallow embedding of the store controller (routes, upload filter,
    image resize middleware, create / update / edit / tag / search / near
    handlers) together with the parts of the Store model it calls, and the
    properties of the catalog checked against it.

    Layout:
    - [Slug]: the slug generator of the Store model
    - [Jimp]: the image operations the resize middleware uses, with the
      arithmetic of JavaScript numbers, and [Binary64], the same arithmetic
      on the floating-point numbers of the kernel
    - documents, requests, responses, the state and the handler monad [M]
    - section Model: queries, [save] and [create] of the Store model
    - section Controller: the handlers and routes of storeController.ts
    - section Reached and [Fixture]: states the handlers reach, sample data
    - the facts, by topic: slugs, update, search and proximity, tags, the
      arithmetic of resize, image ingest, create. *)

From Stdlib Require Import Ascii String DecimalString DecimalNat QArith Qcanon.
From Stdlib Require PrimFloat Uint63 FloatOps.
From stdpp Require Import base tactics option list sorting numbers strings gmap.

Local Open Scope Z_scope.
Local Open Scope stdpp_scope.

(* ===================================================================== *)
(** ** Slug generator *)
(* ===================================================================== *)

Module Slug.

(** The slug generator lives in models/Store.ts, which is not among the
    sources; it is taken from section 4.1 of the specification.  Names are
    byte strings; every byte outside ASCII is outside [a-z0-9-] and is
    stripped. *)

Definition is_upper (c : ascii) : bool :=
  (65 <=? nat_of_ascii c)%nat && (nat_of_ascii c <=? 90)%nat.
Definition is_lower (c : ascii) : bool :=
  (97 <=? nat_of_ascii c)%nat && (nat_of_ascii c <=? 122)%nat.
Definition is_digit (c : ascii) : bool :=
  (48 <=? nat_of_ascii c)%nat && (nat_of_ascii c <=? 57)%nat.
Definition is_alnum (c : ascii) : bool := is_lower c || is_digit c.
Definition hyphen : ascii := "-"%char.
Definition is_hyphen (c : ascii) : bool := Ascii.eqb c hyphen.

(** step 1: lower-case *)
Definition to_lower (c : ascii) : ascii :=
  if is_upper c then ascii_of_nat (nat_of_ascii c + 32) else c.

(** steps 2 and 4: every maximal run of characters satisfying [p] becomes
    one hyphen *)
Fixpoint squeeze (p : ascii -> bool) (l : list ascii) : list ascii :=
  match l with
  | [] => []
  | c :: t =>
      if p c then
        match t with
        | c' :: _ => if p c' then squeeze p t else hyphen :: squeeze p t
        | [] => [hyphen]
        end
      else c :: squeeze p t
  end.

(** step 3: strip characters outside [a-z0-9-] *)
Definition keep (c : ascii) : bool := is_alnum c || is_hyphen c.
Definition strip (l : list ascii) : list ascii := List.filter keep l.

(** step 5: trim leading and trailing hyphens *)
Fixpoint trim_left (l : list ascii) : list ascii :=
  match l with
  | c :: t => if is_hyphen c then trim_left t else l
  | [] => []
  end.
Fixpoint trim_right (l : list ascii) : list ascii :=
  match l with
  | c :: t =>
      match trim_right t with
      | [] => if is_hyphen c then [] else [c]
      | t' => c :: t'
      end
  | [] => []
  end.
Definition trim (l : list ascii) : list ascii := trim_right (trim_left l).

(** The five steps, in order. *)
Definition slugify (l : list ascii) : list ascii :=
  trim (squeeze is_hyphen (strip (squeeze Ascii.is_space (map to_lower l)))).

(** Modelled from the spec: deriveSlug of models/Store.ts, which is not
    among the sources (section 4.1): lower-case the name, replace whitespace
    runs with a single hyphen, strip characters outside [a-z0-9-], collapse
    repeated hyphens, trim leading and trailing hyphens. *)
Definition deriveSlug (name : string) : string :=
  string_of_list_ascii (slugify (list_ascii_of_string name)).

(** The pattern [^[a-z0-9]+(-[a-z0-9]+)*$], as the automaton that reads
    it: [segment] is the state inside a run of [a-z0-9]. *)
Fixpoint segment (l : list ascii) : bool :=
  match l with
  | [] => true
  | c :: t =>
      if is_alnum c then segment t
      else if is_hyphen c then
        match t with
        | c' :: _ => is_alnum c' && segment t
        | [] => false
        end
      else false
  end.
Definition slug_chars (l : list ascii) : bool :=
  match l with
  | c :: _ => is_alnum c && segment l
  | [] => false
  end.
Definition slugPattern (s : string) : bool :=
  slug_chars (list_ascii_of_string s).

(** The same pattern as a regular expression, with the usual meaning. *)
Inductive regex :=
| Class (p : ascii -> bool)
| Chr (c : ascii)
| Seq (r1 r2 : regex)
| Star (r : regex)
| Plus (r : regex).

Inductive matches : regex -> list ascii -> Prop :=
| m_class p c : p c = true -> matches (Class p) [c]
| m_chr c : matches (Chr c) [c]
| m_seq r1 r2 l1 l2 :
    matches r1 l1 -> matches r2 l2 -> matches (Seq r1 r2) (l1 ++ l2)
| m_star_nil r : matches (Star r) []
| m_star_app r l1 l2 :
    matches r l1 -> matches (Star r) l2 -> matches (Star r) (l1 ++ l2)
| m_plus r l1 l2 :
    matches r l1 -> matches (Star r) l2 -> matches (Plus r) (l1 ++ l2).

Definition slugRegex : regex :=
  Seq (Plus (Class is_alnum))
      (Star (Seq (Chr hyphen) (Plus (Class is_alnum)))).

(** A name with an ASCII letter or digit in it. *)
Definition alphanumeric (c : ascii) : bool :=
  is_upper c || is_lower c || is_digit c.
Definition hasAlphanumeric (name : string) : bool :=
  existsb alphanumeric (list_ascii_of_string name).

(** The candidate with the suffix -n, [n] in decimal. *)
Definition decimal (n : nat) : string :=
  NilEmpty.string_of_uint (Nat.to_uint n).
Definition suffixed (candidate : string) (n : nat) : string :=
  candidate +:+ "-" +:+ decimal n.
Definition taken (slugs : list string) (s : string) : bool :=
  bool_decide (s ∈ slugs).
(** The first [n' >= n] whose suffixed slug is free, looking at [fuel]
    suffixes at most. *)
Fixpoint firstUnused (slugs : list string) (candidate : string)
    (n fuel : nat) : nat :=
  match fuel with
  | O => n
  | S fuel' =>
      if taken slugs (suffixed candidate n)
      then firstUnused slugs candidate (S n) fuel'
      else n
  end.
(** Modelled from the spec: the collision resolution of models/Store.ts,
    which is not among the sources (section 4.1): the candidate itself when
    it is free in the catalog, else the candidate with the first suffix -2,
    -3, ... that is not in use.  As many suffixes as the catalog has slugs
    are enough to look at. *)
Definition uniqueSlug (slugs : list string) (candidate : string) : string :=
  if taken slugs candidate
  then suffixed candidate (firstUnused slugs candidate 2 (length slugs))
  else candidate.

(** The slug of a new store named [name] in a catalog with [slugs]. *)
Definition newSlug (slugs : list string) (name : string) : string :=
  uniqueSlug slugs (deriveSlug name).

(** Predicates on the intermediate strings of the pipeline. *)
Fixpoint no_double (l : list ascii) : bool :=
  match l with
  | c :: t =>
      match t with
      | c' :: _ => negb (is_hyphen c && is_hyphen c') && no_double t
      | [] => true
      end
  | [] => true
  end.

Definition kept (l : list ascii) : bool := forallb keep l.
Definition some_alnum (l : list ascii) : bool := existsb is_alnum l.

(** A name with a character that is in [a-z0-9] once lower-cased. *)
Definition hasAlnum (name : string) : bool :=
  existsb (fun c => is_alnum (to_lower c)) (list_ascii_of_string name).

(** The part of the pattern after the first run. *)
Definition tailRegex : regex := Star (Seq (Chr hyphen) (Plus (Class is_alnum))).

End Slug.

(* ===================================================================== *)
(** ** Image operations (jimp) *)
(* ===================================================================== *)

Module Jimp.

(** A decoded bitmap; the pixels play no role in the catalog. *)
Record Image := { width : Z; height : Z }.

(** [jimp.AUTO] *)
Definition AUTO : Z := -1.

(** JavaScript numbers are IEEE 754 doubles, and [resize] computes the
    missing side in them.  A positive double in the normal range is
    [m / 2^s] for integers [m] and [s] with [2^52 <= m <= 2^53]; it is kept
    as the pair [(m, s)].  The quotients and products of bitmap sides are
    positive and far from overflow and underflow. *)
Definition Double : Type := Z * Z.

(** The integer nearest to [n / d], a tie going to the even one. *)
Definition nearest_even (n d : Z) : Z :=
  let q := n / d in
  let r := n mod d in
  if 2 * r <? d then q
  else if d <? 2 * r then q + 1
  else if Z.even q then q else q + 1.

(** [n / d] times [2^s], as a fraction of integers. *)
Definition num (n s : Z) : Z := n * 2 ^ Z.max 0 s.
Definition den (d s : Z) : Z := d * 2 ^ Z.max 0 (- s).

(** The scale at which [n / d] has 53 significant bits:
    [2^52 <= (n / d) * 2^s < 2^53]. *)
Definition shift (n d : Z) : Z :=
  let s0 := 52 - (Z.log2 n - Z.log2 d) in
  if num n s0 <? 2 ^ 52 * den d s0 then s0 + 1 else s0.

(** The double nearest to [n / d], for [0 < n] and [0 < d]: the result of
    the division [n / d] of two integers below [2^53]. *)
Definition double (n d : Z) : Double :=
  let s := shift n d in (nearest_even (num n s) (den d s), s).

(** [k * x] for an integer [k] below [2^53]: the double nearest to the
    product. *)
Definition times (k : Z) (x : Double) : Double :=
  let '(m, s) := double (k * x.1) 1 in (m, s + x.2).

(** [Math.round]: the nearest integer, a tie going up. *)
Definition mathRound (x : Double) : Z :=
  let '(m, s) := x in
  if 0 <=? s then (2 * m + 2 ^ s) / 2 ^ (s + 1) else m * 2 ^ (- s).

(** [Math.round(other * (target / side))] *)
Definition scaled (target side other : Z) : Z :=
  mathRound (times other (double target side)).

Inductive Resized :=
| Done (img : Image)
| Refused (message : string).

(** [image.resize(w, h)]: both sides AUTO is refused; an AUTO side is the
    other side of the bitmap times the ratio of the given sides, computed
    in doubles; both sides are rounded, and the resizer refuses a side that
    is not positive.  The controller calls it with [(800, AUTO)] only. *)
Definition resize (w h : Z) (img : Image) : Resized :=
  if bool_decide (w = AUTO) && bool_decide (h = AUTO)
  then Refused "w and h cannot both be set to auto"
  else
    let w' := if bool_decide (w = AUTO)
              then scaled h (height img) (width img) else w in
    let h' := if bool_decide (h = AUTO)
              then scaled w (width img) (height img) else h in
    if bool_decide (0 < width img /\ 0 < height img /\ 0 < w' /\ 0 < h')
    then Done {| width := w'; height := h' |}
    else Refused "Invalid settings specified for the resizer.".

End Jimp.

(** The same arithmetic on the binary64 numbers of the kernel, to compare
    [Jimp.scaled] with. *)
Module Binary64.

Definition ofZ (n : Z) : PrimFloat.float :=
  PrimFloat.of_uint63 (Uint63.of_Z n).

(** A positive double, as significand and scale. *)
Definition toDouble (x : PrimFloat.float) : Jimp.Double :=
  let '(m, e) := PrimFloat.frshiftexp x in
  (Uint63.to_Z (PrimFloat.normfr_mantissa m),
   53 - (Uint63.to_Z e - FloatOps.shift)).

(** [Math.round(other * (target / side))] *)
Definition scaled (target side other : Z) : Z :=
  Jimp.mathRound
    (toDouble (PrimFloat.mul (ofZ other)
                 (PrimFloat.div (ofZ target) (ofZ side)))).

(** The bitmaps [w x h] with [w0 <= w < w0 + n] and [h0 <= h < h0 + n]. *)
Definition sides (w0 h0 : Z) (n : nat) : list (Z * Z) :=
  w ← (fun i => w0 + Z.of_nat i) <$> seq 0 n;
  h ← (fun i => h0 + Z.of_nat i) <$> seq 0 n;
  [(w, h)].

Definition agree (wh : Z * Z) : bool :=
  Jimp.scaled 800 wh.1 wh.2 =? scaled 800 wh.1 wh.2.

End Binary64.

(* ===================================================================== *)
(** ** Documents, requests and responses *)
(* ===================================================================== *)

Definition ObjectId := string.

Record Location := {
  type : string;
  coordinates : list Qc;
  address : option string
}.

(** A store document (IStore).  [None] is JavaScript's [undefined]. *)
Record IStore := {
  _id : ObjectId;
  name : option string;
  slug : string;
  description : option string;
  tags : list string;
  location : Location;
  photo : option string;
  author : ObjectId;
  created : Z
}.

Module User.
Record IUserModel := { _id : ObjectId; email : string; name : string }.
End User.

(** [request.body] of the store form. *)
Record BodyLocation := {
  bl_type : option string;
  bl_coordinates : list Qc;
  bl_address : option string
}.
Record Body := {
  b_name : option string;
  b_description : option string;
  b_location : option BodyLocation;
  b_photo : option string;
  b_tags : list string;
  b_author : option ObjectId
}.

(** [request.file], as multer's memory storage leaves it. *)
Record File := { mimetype : string; buffer : list Byte.byte }.

Record Request := {
  params : gmap string string;
  query : gmap string string;
  body : Body;
  user : option User.IUserModel;
  file : option File
}.

(** A document as it is sent in a JSON response: an absent field is
    [None]. *)
Record Doc := {
  d_id : ObjectId;
  d_name : option string;
  d_slug : option string;
  d_description : option string;
  d_tags : option (list string);
  d_location : option Location;
  d_photo : option string;
  d_author : option ObjectId;
  d_created : option Z;
  d_score : option Qc
}.

Record TagCount := { tag : string; count : nat }.

(** The locals handed to a view. *)
Record Locals := {
  title : string;
  l_store : option IStore;
  l_stores : list IStore;
  l_tag : option string;
  l_tags : list TagCount
}.

Inductive Response :=
| Render (view : string) (locals : Locals)
| Redirect (url : string)
| Json (docs : list Doc).

Inductive Error :=
| Err (message : string)
| TypeError (message : string)
| FileTypeError (message : string)
| DecodeError
| ValidationError (path : string)
| QueryError.

Inductive Event :=
| FileWritten (path : string)
| StoreSaved (store : IStore).

(** Everything a handler can read or change: the request and response
    objects, the flash messages of the session, the Store collection in its
    natural order, the files of the content area, the writes to it that
    have been started and are still in flight (oldest first), the paths at
    which a write fails (a full disk, a missing directory, a format that
    jimp cannot encode), the random source of [uuid.v4] and of new object
    ids, the clock, and the log of completed writes (oldest first). *)
Record State := {
  request : Request;
  response : option Response;
  flashes : list (string * string);
  stores : list IStore;
  uploads : gmap string Jimp.Image;
  pending : list (string * Jimp.Image);
  refuses : string -> bool;
  entropy : nat -> string;
  draws : nat;
  clock : Z;
  log : list Event
}.

(* ===================================================================== *)
(** ** Handlers: state and exceptions *)
(* ===================================================================== *)

Inductive Result (A : Type) :=
| Ok (a : A)
| Throw (e : Error).
Arguments Ok {A} a.
Arguments Throw {A} e.

(** An asynchronous handler body: it runs on the state, and either returns
    or throws; what it changed before throwing stays changed. *)
Definition M (A : Type) : Type := State -> Result A * State.

Global Instance M_ret : MRet M := fun A a st => (Ok a, st).
Global Instance M_bind : MBind M := fun A B f m st =>
  match m st with
  | (Ok a, st') => f a st'
  | (Throw e, st') => (Throw e, st')
  end.
Global Instance M_throw : MThrow Error M := fun A e st => (Throw e, st).

Definition gets {A} (f : State -> A) : M A := fun st => (Ok (f st), st).
Definition modify (f : State -> State) : M unit := fun st => (Ok tt, f st).

Definition set_request (r : Request) (st : State) : State :=
  {| request := r; response := response st; flashes := flashes st;
     stores := stores st; uploads := uploads st; pending := pending st;
     refuses := refuses st;
     entropy := entropy st; draws := draws st; clock := clock st;
     log := log st |}.
Definition set_response (r : option Response) (st : State) : State :=
  {| request := request st; response := r; flashes := flashes st;
     stores := stores st; uploads := uploads st; pending := pending st;
     refuses := refuses st;
     entropy := entropy st; draws := draws st; clock := clock st;
     log := log st |}.
Definition set_flashes (f : list (string * string)) (st : State) : State :=
  {| request := request st; response := response st; flashes := f;
     stores := stores st; uploads := uploads st; pending := pending st;
     refuses := refuses st;
     entropy := entropy st; draws := draws st; clock := clock st;
     log := log st |}.
Definition set_stores (db : list IStore) (st : State) : State :=
  {| request := request st; response := response st; flashes := flashes st;
     stores := db; uploads := uploads st; pending := pending st;
     refuses := refuses st;
     entropy := entropy st; draws := draws st; clock := clock st;
     log := log st |}.
Definition set_uploads (fs : gmap string Jimp.Image) (st : State) : State :=
  {| request := request st; response := response st; flashes := flashes st;
     stores := stores st; uploads := fs; pending := pending st;
     refuses := refuses st;
     entropy := entropy st; draws := draws st; clock := clock st;
     log := log st |}.
Definition set_pending (ws : list (string * Jimp.Image)) (st : State) : State :=
  {| request := request st; response := response st; flashes := flashes st;
     stores := stores st; uploads := uploads st; pending := ws;
     refuses := refuses st;
     entropy := entropy st; draws := draws st; clock := clock st;
     log := log st |}.
Definition set_refuses (r : string -> bool) (st : State) : State :=
  {| request := request st; response := response st; flashes := flashes st;
     stores := stores st; uploads := uploads st; pending := pending st;
     refuses := r;
     entropy := entropy st; draws := draws st; clock := clock st;
     log := log st |}.
Definition set_draws (n : nat) (st : State) : State :=
  {| request := request st; response := response st; flashes := flashes st;
     stores := stores st; uploads := uploads st; pending := pending st;
     refuses := refuses st;
     entropy := entropy st; draws := n; clock := clock st;
     log := log st |}.
Definition set_log (l : list Event) (st : State) : State :=
  {| request := request st; response := response st; flashes := flashes st;
     stores := stores st; uploads := uploads st; pending := pending st;
     refuses := refuses st;
     entropy := entropy st; draws := draws st; clock := clock st;
     log := l |}.

Definition set_body (b : Body) (r : Request) : Request :=
  {| params := params r; query := query r; body := b; user := user r;
     file := file r |}.
Definition set_b_photo (p : option string) (b : Body) : Body :=
  {| b_name := b_name b; b_description := b_description b;
     b_location := b_location b; b_photo := p; b_tags := b_tags b;
     b_author := b_author b |}.
Definition set_b_author (a : option ObjectId) (b : Body) : Body :=
  {| b_name := b_name b; b_description := b_description b;
     b_location := b_location b; b_photo := b_photo b; b_tags := b_tags b;
     b_author := a |}.
Definition set_b_location (l : option BodyLocation) (b : Body) : Body :=
  {| b_name := b_name b; b_description := b_description b;
     b_location := l; b_photo := b_photo b; b_tags := b_tags b;
     b_author := b_author b |}.
Definition set_bl_type (t : option string) (l : BodyLocation) : BodyLocation :=
  {| bl_type := t; bl_coordinates := bl_coordinates l;
     bl_address := bl_address l |}.

Definition set_name (n : option string) (s : IStore) : IStore :=
  {| _id := _id s; name := n; slug := slug s; description := description s;
     tags := tags s; location := location s; photo := photo s;
     author := author s; created := created s |}.
Definition set_description (d : option string) (s : IStore) : IStore :=
  {| _id := _id s; name := name s; slug := slug s; description := d;
     tags := tags s; location := location s; photo := photo s;
     author := author s; created := created s |}.
Definition set_location (l : Location) (s : IStore) : IStore :=
  {| _id := _id s; name := name s; slug := slug s;
     description := description s; tags := tags s; location := l;
     photo := photo s; author := author s; created := created s |}.
Definition set_address (a : option string) (l : Location) : Location :=
  {| type := type l; coordinates := coordinates l; address := a |}.

(** The request object and the response object. *)
Definition getBody : M Body := gets (fun st => body (request st)).
Definition setBody (b : Body) : M unit :=
  modify (fun st => set_request (set_body b (request st)) st).
Definition param (k : string) : M (option string) :=
  gets (fun st => params (request st) !! k).
Definition queryParam (k : string) : M (option string) :=
  gets (fun st => query (request st) !! k).
Definition send (r : Response) : M unit := modify (set_response (Some r)).
Definition render (view : string) (locals : Locals) : M unit :=
  send (Render view locals).
Definition redirect (url : string) : M unit := send (Redirect url).
Definition json (docs : list Doc) : M unit := send (Json docs).
Definition flash (kind message : string) : M unit :=
  modify (fun st => set_flashes (flashes st ++ [(kind, message)]) st).

(** [uuid.v4()] and new object ids: the next draw of the random source. *)
Definition draw : M string := fun st =>
  (Ok (entropy st (draws st)), set_draws (S (draws st)) st).

(** A value inside a template literal. *)
Definition show (o : option string) : string := default "undefined" o.

(** [s.split(sep)] for a one-character separator. *)
Fixpoint split (sep : ascii) (s : string) : list string :=
  match s with
  | EmptyString => [""]
  | String c s' =>
      if Ascii.eqb c sep then "" :: split sep s'
      else match split sep s' with
           | h :: t => String c h :: t
           | [] => [String c ""]
           end
  end.

(** [path.join] of POSIX paths: the non-empty arguments are joined by a
    slash and the result is normalized. *)
Definition joined (sep : string) (parts : list string) : string :=
  match parts with
  | [] => ""
  | p :: ps => foldl (fun acc q => acc +:+ sep +:+ q) p ps
  end.
(** The segments of a normalized path, last first: empty segments and [.]
    are dropped, [..] takes back the segment before it, and stays only at
    the start of a relative path. *)
Definition normalizeSegment (allowAboveRoot : bool) (acc : list string)
    (seg : string) : list string :=
  if bool_decide (seg = "") || bool_decide (seg = ".") then acc
  else if bool_decide (seg = "..") then
    match acc with
    | p :: acc' =>
        if bool_decide (p = "..") then seg :: acc else acc'
    | [] => if allowAboveRoot then [seg] else []
    end
  else seg :: acc.
Definition normalize (path : string) : string :=
  if bool_decide (path = "") then "."
  else
    let isAbsolute := String.prefix "/" path in
    let trailingSeparator :=
      bool_decide (last (split "/" path) = Some "") in
    let segs :=
      rev (foldl (normalizeSegment (negb isAbsolute)) [] (split "/" path)) in
    let p := joined "/" segs in
    if bool_decide (p = "") then
      if isAbsolute then "/" else if trailingSeparator then "./" else "."
    else (if isAbsolute then "/" else "") +:+ p
         +:+ (if trailingSeparator then "/" else "").
Definition path_join (parts : list string) : string :=
  match List.filter (fun p => negb (bool_decide (p = ""))) parts with
  | [] => "."
  | ps => normalize (joined "/" ps)
  end.

(** What a handler did with control: called [next()], called [next(err)],
    or returned without calling it. *)
Inductive Signal :=
| Next
| NextErr (e : Error)
| Return.

(** What the client gets from a route. [NotFound] is errorHandlers.notFound,
    which app.ts installs after the controllers; [Hung] is a request no
    handler answered. *)
Inductive Outcome :=
| Sent (r : Response)
| NotFound
| Failed (e : Error)
| Hung.

Definition finished (st : State) : Outcome :=
  match response st with
  | Some r => Sent r
  | None => Hung
  end.

(** The middleware of a route, in order. A handler that throws outside
    [catchErrors] fails the request as well. *)
Fixpoint runRoute (handlers : list (M Signal)) (st : State) : Outcome * State :=
  match handlers with
  | [] => (NotFound, st)
  | h :: rest =>
      match h st with
      | (Ok Next, st') => runRoute rest st'
      | (Ok (NextErr e), st') => (Failed e, st')
      | (Ok Return, st') => (finished st', st')
      | (Throw e, st') => (Failed e, st')
      end
  end.

(** Modelled from the spec: catchErrors of handlers/errorHandlers.ts, which
    is not among the sources; an error of the wrapped handler goes to the
    caller unmodified (section 7), through [next(err)]. *)
Definition catchErrors (h : M Signal) : M Signal := fun st =>
  match h st with
  | (Throw e, st') => (Ok (NextErr e), st')
  | r => r
  end.

(** The event loop finishing the writes in flight: each file lands in the
    content area, unless the write fails; the error of a failed write goes
    to the empty callback that [write] installs, and is lost.  No handler
    waits for a write in flight or reads the content area, so the moment at
    which a write lands changes nothing of what the handlers do; [settle]
    is what the event loop has done when all of them are finished. *)
Definition land (st : State) (w : string * Jimp.Image) : State :=
  if refuses st w.1 then st
  else set_log (log st ++ [FileWritten w.1])
         (set_uploads (<[w.1 := w.2]> (uploads st)) st).
Definition settle (st : State) : State :=
  set_pending [] (foldl land st (pending st)).

(** The collaborators outside the repository: the sanitizer of the save
    hook, jimp's decoder, [parseFloat], the distance in metres that the
    2dsphere index computes between a query point and stored coordinates,
    the textScore of the text index ([None]: the store does not match the
    search), and the public directory of ../app. *)
Class Ports := {
  sanitize : string -> string;
  decode : list Byte.byte -> option Jimp.Image;
  parseFloat : string -> option Qc;
  distance : list Qc -> list Qc -> Qc;
  textScore : string -> IStore -> option Qc;
  publicDirectory : string
}.

(* ===================================================================== *)
(** ** The Store model (models/Store) *)
(* ===================================================================== *)

Section Model.
Context `{Ports}.

(** [Store.findOne(cond)]: the first document of the collection that
    satisfies the condition, or null. *)
Definition findOne (cond : IStore -> bool) : M (option IStore) :=
  gets (fun st => List.find cond (stores st)).

(** The condition [{ _id: id }]; an undefined id equals no document's. *)
Definition byId (id : option string) (s : IStore) : bool :=
  bool_decide (id = Some (_id s)).
Definition bySlug (sl : option string) (s : IStore) : bool :=
  bool_decide (sl = Some (slug s)).

(** The condition on the [tags] array: it holds the tag, or it exists. *)
Inductive TagQuery :=
| TagIs (t : string)
| TagExists.
Definition byTags (q : TagQuery) (s : IStore) : bool :=
  match q with
  | TagIs t => bool_decide (t ∈ tags s)
  | TagExists => true
  end.

(** [Store.find(cond)], in natural order. *)
Definition find (cond : IStore -> bool) : M (list IStore) :=
  gets (fun st => List.filter cond (stores st)).

(** Writing a document back over the one with its [_id]. *)
Fixpoint replaceDoc (s : IStore) (db : list IStore) : list IStore :=
  match db with
  | [] => []
  | d :: rest =>
      if bool_decide (_id d = _id s) then s :: rest
      else d :: replaceDoc s rest
  end.

(** The distinct elements of a list, in order of first appearance. *)
Fixpoint distinctFrom (seen l : list string) : list string :=
  match l with
  | [] => []
  | t :: rest =>
      if bool_decide (t ∈ seen) then distinctFrom seen rest
      else t :: distinctFrom (t :: seen) rest
  end.
Definition distinct (l : list string) : list string := distinctFrom [] l.

Definition required (path : string) (v : option string) : M string :=
  match v with
  | Some s => if bool_decide (s = "") then mthrow (ValidationError path) else mret s
  | None => mthrow (ValidationError path)
  end.

Definition sanitizeLocation (l : Location) : Location :=
  set_address (sanitize <$> address l) l.
Definition sanitizeStore (s : IStore) : IStore :=
  {| _id := _id s; name := sanitize <$> name s; slug := slug s;
     description := sanitize <$> description s; tags := tags s;
     location := sanitizeLocation (location s); photo := photo s;
     author := author s; created := created s |}.

Definition persist (db : list IStore) (s : IStore) : M unit :=
  modify (fun st => set_log (log st ++ [StoreSaved s]) (set_stores db st)).

(** Modelled from the spec: [save()] on a document loaded from the
    collection; models/Store.ts with its pre-save hook is not among the
    sources.  The required name is validated, the hook sanitizes the text
    fields, and the slug is derived for brand-new records only, never here
    (sections 3, 4.3 and 9). *)
Definition save (s : IStore) : M IStore :=
  _ ← required "name" (name s);
  let s' := sanitizeStore s in
  db ← gets stores;
  persist (replaceDoc s' db) s';;
  mret s'.

(** Modelled from the spec: [new Store(body)] followed by [save()] for a
    brand-new record (section 4.3, create): name, location and author are
    required, location.type is the literal Point, empty and repeated tags
    are dropped, the photo stays absent when none came, the slug is derived
    from the name against the slugs in the catalog (section 4.1), and the
    persistence layer assigns the id and the creation time. *)
Definition create (b : Body) : M IStore :=
  n ← required "name" (b_name b);
  l ← from_option mret (mthrow (ValidationError "location")) (b_location b);
  a ← from_option mret (mthrow (ValidationError "author")) (b_author b);
  id ← draw;
  now ← gets clock;
  db ← gets stores;
  let s := sanitizeStore
    {| _id := id; name := Some n; slug := Slug.newSlug (slug <$> db) n;
       description := b_description b;
       tags := distinct (List.filter (fun t => negb (bool_decide (t = ""))) (b_tags b));
       location := {| type := "Point"; coordinates := bl_coordinates l;
                      address := bl_address l |};
       photo := b_photo b; author := a; created := now |} in
  persist (db ++ [s]) s;;
  mret s.

(** Modelled from the spec: the static getTagsList of models/Store.ts, not
    among the sources (section 4.5): over the full catalog, the distinct
    tags and for each the number of stores that hold it. *)
Definition tagCounts (db : list IStore) : list TagCount :=
  (fun t => {| tag := t;
               count := length (List.filter (byTags (TagIs t)) db) |})
    <$> distinct (concat (tags <$> db)).
Definition getTagsList : M (list TagCount) := gets (fun st => tagCounts (stores st)).

(** The full document, as [response.json] sends it. *)
Definition toDoc (score : option Qc) (s : IStore) : Doc :=
  {| d_id := _id s; d_name := name s; d_slug := Some (slug s);
     d_description := description s; d_tags := Some (tags s);
     d_location := Some (location s); d_photo := photo s;
     d_author := Some (author s); d_created := Some (created s);
     d_score := score |}.

(** [.select(fields)]: the named fields, and the id. *)
Definition has (fields : list string) (f : string) : bool :=
  bool_decide (f ∈ fields).
Definition select (fields : string) (s : IStore) : Doc :=
  let fs := split " " fields in
  {| d_id := _id s;
     d_name := if has fs "name" then name s else None;
     d_slug := if has fs "slug" then Some (slug s) else None;
     d_description := if has fs "description" then description s else None;
     d_tags := if has fs "tags" then Some (tags s) else None;
     d_location := if has fs "location" then Some (location s) else None;
     d_photo := if has fs "photo" then photo s else None;
     d_author := if has fs "author" then Some (author s) else None;
     d_created := if has fs "created" then Some (created s) else None;
     d_score := None |}.

(** [find({ $text: { $search: q } }, { score: { $meta: "textScore" } })]:
    the matching stores, each with its score. *)
Definition textSearch (q : string) (db : list IStore) : list (IStore * Qc) :=
  omap (fun s => pair s <$> textScore q s) db.

(** [.sort({ score: { $meta: "textScore" } })]: highest score first. *)
Definition byScore : relation (IStore * Qc) := fun a b => (b.2 <= a.2)%Qc.
Global Instance byScore_dec : RelDecision byScore :=
  fun a b => decide (b.2 <= a.2)%Qc.
Definition sortByScore : list (IStore * Qc) -> list (IStore * Qc) :=
  merge_sort byScore.

(** [.limit(n)] *)
Definition limit {A} (n : nat) (l : list A) : list A := take n l.

(** [find({ location: { $near: { $geometry: { coordinates, type: "Point" },
    $maxDistance } } })]: the stores within the distance, nearest first. *)
Definition metres (point : list Qc) (s : IStore) : Qc :=
  distance point (coordinates (location s)).
Definition nearer (point : list Qc) : relation IStore :=
  fun a b => (metres point a <= metres point b)%Qc.
Global Instance nearer_dec point : RelDecision (nearer point) :=
  fun a b => decide (metres point a <= metres point b)%Qc.
Definition near (point : list Qc) (maxDistance : Qc) (db : list IStore) : list IStore :=
  merge_sort (nearer point)
    (List.filter (fun s => bool_decide (metres point s <= maxDistance)%Qc) db).

End Model.

(* ===================================================================== *)
(** ** The store controller (controllers/storeController.ts) *)
(* ===================================================================== *)

Section Controller.
Context `{Ports}.

Definition view (t : string) : Locals :=
  {| title := t; l_store := None; l_stores := []; l_tag := None; l_tags := [] |}.

(** [multerOptions.fileFilter] *)
Definition fileFilter (f : File) : Result bool :=
  let isPhoto := String.prefix "image/" (mimetype f) in
  if isPhoto then Ok true
  else Throw (FileTypeError "That file type isn't allowed").

(** [multer(multerOptions).single("photo")] on the attached file, if any. *)
Definition upload : M Signal :=
  f ← gets (fun st => file (request st));
  match f with
  | None => mret Next
  | Some f =>
      match fileFilter f with
      | Ok _ => mret Next
      | Throw e => mret (NextErr e)
      end
  end.

(** [jimp.read(buffer)]: the decoded bitmap, or an error. *)
Definition jimp_read (buf : list Byte.byte) : M Jimp.Image :=
  from_option mret (mthrow DecodeError) (decode buf).
(** [photo.resize(w, h)]: a refusal is thrown. *)
Definition jimp_resize (w h : Z) (img : Jimp.Image) : M Jimp.Image :=
  match Jimp.resize w h img with
  | Jimp.Done img' => mret img'
  | Jimp.Refused message => mthrow (Err message)
  end.
(** [photo.write(path)] without a callback: jimp starts the write and
    returns the image at once, not a promise, so the [await] in front of it
    waits for nothing.  The file is in the content area only when the write
    lands, see [settle]. *)
Definition jimp_write (path : string) (img : Jimp.Image) : M Jimp.Image :=
  modify (fun st => set_pending (pending st ++ [(path, img)]) st);;
  mret img.

Definition uploadPath (photo : string) : string :=
  path_join [publicDirectory; "uploads"; photo].

Definition resize : M Signal :=
  f ← gets (fun st => file (request st));
  match f with
  | None => mret Next
  | Some f =>
      let extension := show (split "/" (mimetype f) !! 1%nat) in
      id ← draw;
      b ← getBody;
      setBody (set_b_photo (Some (id +:+ "." +:+ extension)) b);;
      photo ← jimp_read (buffer f);
      photo ← jimp_resize 800 Jimp.AUTO photo;
      b ← getBody;
      jimp_write (uploadPath (show (b_photo b))) photo;;
      mret Next
  end.

(** [request.user._id] *)
Definition userId : M ObjectId :=
  u ← gets (fun st => user (request st));
  match u with
  | Some u => mret (User._id u)
  | None => mthrow (TypeError "Cannot read property '_id' of undefined")
  end.

Definition createStore : M Signal :=
  a ← userId;
  b ← getBody;
  setBody (set_b_author (Some a) b);;
  b ← getBody;
  store ← create b;
  flash "success"
    ("Successfully created " +:+ show (name store) +:+ ". Care to leave a review?");;
  redirect ("/store/" +:+ slug store);;
  mret Return.

Definition getStores : M Signal :=
  stores ← find (fun _ => true);
  render "stores"
    {| title := "Stores"; l_store := None; l_stores := stores;
       l_tag := None; l_tags := [] |};;
  mret Return.

Definition confirmOwner (store : IStore) (u : option User.IUserModel) : M unit :=
  match u with
  | None => mthrow (TypeError "Cannot read property '_id' of undefined")
  | Some u =>
      if negb (bool_decide (author store = User._id u))
      then mthrow (Err "You must own a store in order to edit it!")
      else mret tt
  end.

Definition editStore : M Signal :=
  id ← param "id";
  store ← findOne (byId id);
  match store with
  | Some store =>
      u ← gets (fun st => user (request st));
      confirmOwner store u;;
      render "editStore"
        {| title := "Edit " +:+ show (name store); l_store := Some store;
           l_stores := []; l_tag := None; l_tags := [] |};;
      mret Return
  | None => mret Return
  end.

Definition updateStore : M Signal :=
  b ← getBody;
  match b_location b with
  | Some l => setBody (set_b_location (Some (set_bl_type (Some "Point") l)) b)
  | None => mthrow (TypeError "Cannot set property 'type' of undefined")
  end;;
  id ← param "id";
  oldStore ← findOne (byId id);
  match oldStore with
  | Some oldStore =>
      b ← getBody;
      let oldStore := set_name (b_name b) oldStore in
      let oldStore := set_description (b_description b) oldStore in
      let oldStore :=
        set_location (set_address (b_description b) (location oldStore)) oldStore in
      newStore ← save oldStore;
      flash "success" ("Successfully updated " +:+ show (name newStore));;
      redirect ("/stores/" +:+ _id newStore +:+ "/edit");;
      mret Return
  | None => mret Return
  end.

(** The author reference that [populate] resolves is left as the id. *)
Definition getStoreBySlug : M Signal :=
  sl ← param "slug";
  store ← findOne (bySlug sl);
  match store with
  | None => mret Next
  | Some store =>
      render "store"
        {| title := "Welcome to " +:+ show (name store); l_store := Some store;
           l_stores := []; l_tag := None; l_tags := [] |};;
      mret Return
  end.

(** [tag || { $exists: true }]: undefined and the empty string are falsy. *)
Definition tagQueryOf (tag : option string) : TagQuery :=
  match tag with
  | Some t => if bool_decide (t = "") then TagExists else TagIs t
  | None => TagExists
  end.

Definition getStoresByTag : M Signal :=
  tag ← param "tag";
  let tagQuery := tagQueryOf tag in
  tags ← getTagsList;
  stores ← find (byTags tagQuery);
  render "tag"
    {| title := "Tags"; l_store := None; l_stores := stores; l_tag := tag;
       l_tags := tags |};;
  mret Return.

Definition searchStores : M Signal :=
  q ← queryParam "q";
  q ← from_option mret (mthrow QueryError) q;
  stores ← gets (fun st => limit 5 (sortByScore (textSearch q (stores st))));
  json ((fun d => toDoc (Some d.2) d.1) <$> stores);;
  mret Return.

Definition mapStores : M Signal :=
  lng ← queryParam "lng";
  lat ← queryParam "lat";
  let coordinates := (fun v : option string => v ≫= parseFloat) <$> [lng; lat] in
  point ← from_option mret (mthrow QueryError) (mapM id coordinates);
  stores ← gets (fun st =>
    limit 10 (select "slug name description location photo"
                <$> near point (Q2Qc (inject_Z 10000)) (stores st)));
  json stores;;
  mret Return.

Definition mapPage : M Signal :=
  render "map" (view "Map");;
  mret Return.

(** [initializeRoutes] *)
Inductive Route :=
| POST_add
| POST_add_id
| GET_stores_id_edit
| GET_store_slug
| GET_tags
| GET_tags_tag
| GET_api_search
| GET_api_stores_near
| GET_map
| GET_root
| GET_stores.

Definition initializeRoutes (r : Route) : list (M Signal) :=
  match r with
  | POST_add => [upload; catchErrors resize; catchErrors createStore]
  | POST_add_id => [upload; catchErrors resize; catchErrors updateStore]
  | GET_stores_id_edit => [catchErrors editStore]
  | GET_store_slug => [catchErrors getStoreBySlug]
  | GET_tags => [catchErrors getStoresByTag]
  | GET_tags_tag => [catchErrors getStoresByTag]
  | GET_api_search => [catchErrors searchStores]
  | GET_api_stores_near => [catchErrors mapStores]
  | GET_map => [catchErrors mapPage]
  | GET_root => [catchErrors getStores]
  | GET_stores => [catchErrors getStores]
  end.

Definition handle (r : Route) : State -> Outcome * State :=
  runRoute (initializeRoutes r).

End Controller.

(* ===================================================================== *)
(** ** States that the handlers reach *)
(* ===================================================================== *)

Section Reached.
Context `{Ports}.

(** The document that [updateStore] hands to [save]: the three assignments
    of the handler, in order. *)
Definition assigned (b : Body) (oldStore : IStore) : IStore :=
  set_location (set_address (b_description b) (location oldStore))
    (set_description (b_description b) (set_name (b_name b) oldStore)).

(** Identity, slug and author of every document, in collection order. *)
Definition keys (db : list IStore) : list (ObjectId * string * ObjectId) :=
  (fun s => (_id s, slug s, author s)) <$> db.

(** The request as [updateStore] leaves it: [body.location.type] is set. *)
Definition typed (l : BodyLocation) (st : State) : State :=
  set_request
    (set_body (set_b_location (Some (set_bl_type (Some "Point") l))
                 (body (request st))) (request st)) st.

(** The state after a successful update of [oldStore]. *)
Definition updated (l : BodyLocation) (oldStore : IStore) (st : State) : State :=
  let b := body (request st) in
  let newStore := sanitizeStore (assigned b oldStore) in
  set_response (Some (Redirect ("/stores/" +:+ _id newStore +:+ "/edit")))
    (set_flashes
       (flashes st ++ [("success", "Successfully updated " +:+ show (name newStore))])
       (set_log (log st ++ [StoreSaved newStore])
          (set_stores (replaceDoc newStore (stores st)) (typed l st)))).

Definition validName (n : option string) : Prop :=
  exists s, n = Some s /\ s <> "".

(** The name the middleware gives the photo: a fresh draw of [uuid.v4],
    a dot, and the second component of the MIME type. *)
Definition filenameOf (st : State) (f : File) : string :=
  entropy st (draws st) +:+ "." +:+ show (split "/" (mimetype f) !! 1%nat).

(** The state once [request.body.photo] is set. *)
Definition named (f : File) (st : State) : State :=
  let st1 := set_draws (S (draws st)) st in
  set_request
    (set_body (set_b_photo (Some (filenameOf st f)) (body (request st1)))
       (request st1)) st1.

(** The state once the write of the resized [photo] is started. *)
Definition started (f : File) (photo : Jimp.Image) (st : State) : State :=
  let st2 := named f st in
  set_pending (pending st2 ++ [(uploadPath (filenameOf st f), photo)]) st2.

End Reached.

(* ===================================================================== *)
(** ** Sample data *)
(* ===================================================================== *)

Module Fixture.

(** Collaborators for the examples: an identity sanitizer, a decoder that
    reads every non-empty buffer as a 2000 x 1000 bitmap, a parser that
    knows a few numerals, a distance read off the stored coordinates, and
    a text score that counts on the description. *)
Definition ports : Ports :=
  {| sanitize := fun s => s;
     decode := fun buf =>
       match buf with
       | [] => None
       | _ => Some {| Jimp.width := 2000; Jimp.height := 1000 |}
       end;
     parseFloat := fun s =>
       if bool_decide (s = "51.5") then Some (Q2Qc (515 # 10))
       else if bool_decide (s = "-0.1") then Some (Q2Qc (-1 # 10))
       else None;
     distance := fun _ q => default (Q2Qc 0) (q !! 0%nat);
     textScore := fun q s =>
       if bool_decide (Some q = description s) then Some (Q2Qc 2)
       else if bool_decide (Some q = name s) then Some (Q2Qc 1)
       else None;
     publicDirectory := "public" |}.

Definition alice : User.IUserModel :=
  {| User._id := "u1"; User.email := "alice@example.com"; User.name := "Alice" |}.
Definition bob : User.IUserModel :=
  {| User._id := "u2"; User.email := "bob@example.com"; User.name := "Bob" |}.

(** Alice's store. *)
Definition blueMoon : IStore :=
  {| _id := "s1"; name := Some "Blue Moon Cafe"; slug := "blue-moon-cafe";
     description := Some "coffee"; tags := ["cafe"; "wifi"];
     location := {| type := "Point"; coordinates := [Q2Qc 120; Q2Qc 0];
                    address := Some "1 Main St" |};
     photo := Some "old.png"; author := "u1"; created := 1 |}.
Definition redSun : IStore :=
  {| _id := "s2"; name := Some "Red Sun"; slug := "red-sun";
     description := Some "tea"; tags := ["cafe"];
     location := {| type := "Point"; coordinates := [Q2Qc 50; Q2Qc 0];
                    address := Some "2 High St" |};
     photo := None; author := "u2"; created := 2 |}.
Definition farAway : IStore :=
  {| _id := "s3"; name := Some "Far Away"; slug := "far-away";
     description := Some "coffee"; tags := [];
     location := {| type := "Point"; coordinates := [Q2Qc 20000; Q2Qc 0];
                    address := None |};
     photo := None; author := "u2"; created := 3 |}.

Definition patch : Body :=
  {| b_name := Some "Green Star";
     b_description := Some "juice";
     b_location := Some {| bl_type := None; bl_coordinates := [];
                           bl_address := Some "9 New Rd" |};
     b_photo := Some "new.png"; b_tags := ["bar"]; b_author := None |}.

Definition newStore : Body :=
  {| b_name := Some "Blue Moon Cafe";
     b_description := None;
     b_location := Some {| bl_type := None;
                           bl_coordinates := [Q2Qc (-1 # 10); Q2Qc (515 # 10)];
                           bl_address := None |};
     b_photo := None; b_tags := []; b_author := None |}.

Definition jpeg : File := {| mimetype := "image/jpeg"; buffer := [Byte.xff; Byte.xd8] |}.

Definition state (db : list IStore) (r : Request) : State :=
  {| request := r; response := None; flashes := []; stores := db;
     uploads := ∅; pending := []; refuses := fun _ => false;
     entropy := fun n => "r" +:+ Slug.decimal n; draws := 0; clock := 10;
     log := [] |}.

(** POST /add/s1 by Bob, who does not own s1. *)
Definition strangerUpdate : State :=
  state [blueMoon; redSun]
    {| params := {["id" := "s1"]}; query := ∅; body := patch;
       user := Some bob; file := None |}.
(** POST /add/s1 by Alice, the owner. *)
Definition ownerUpdate : State :=
  state [blueMoon; redSun]
    {| params := {["id" := "s1"]}; query := ∅; body := patch;
       user := Some alice; file := None |}.
(** POST /add/s9: no such store. *)
Definition unknownUpdate : State :=
  state [blueMoon; redSun]
    {| params := {["id" := "s9"]}; query := ∅; body := patch;
       user := Some alice; file := None |}.
(** POST /add, twice the same name. *)
Definition firstCreate : State :=
  state []
    {| params := ∅; query := ∅; body := newStore; user := Some alice;
       file := None |}.
(** POST /add with a photo attached. *)
Definition photoCreate : State :=
  state [redSun]
    {| params := ∅; query := ∅; body := newStore; user := Some alice;
       file := Some jpeg |}.
Definition photoUpdate : State :=
  state [blueMoon; redSun]
    {| params := {["id" := "s1"]}; query := ∅; body := patch;
       user := Some alice; file := Some jpeg |}.
(** GET /tags/cafe and GET /tags *)
Definition tagCafe : State :=
  state [blueMoon; redSun; farAway]
    {| params := {["tag" := "cafe"]}; query := ∅; body := patch;
       user := None; file := None |}.
Definition tagNone : State :=
  state [blueMoon; redSun; farAway]
    {| params := ∅; query := ∅; body := patch; user := None; file := None |}.
(** GET /api/search?q=coffee *)
Definition searchCoffee : State :=
  state [redSun; blueMoon; farAway]
    {| params := ∅; query := {["q" := "coffee"]}; body := patch;
       user := None; file := None |}.
(** GET /api/stores/near?lng=-0.1&lat=51.5 *)
Definition nearLondon : State :=
  state [blueMoon; redSun; farAway]
    {| params := ∅; query := {["lng" := "-0.1"; "lat" := "51.5"]};
       body := patch; user := None; file := None |}.

End Fixture.

(* ===================================================================== *)
(** ** More of the controllers *)
(* ===================================================================== *)

(** The text of [s] before the first [sep]: the first element of
    [s.split(sep)]. *)
Fixpoint upto (sep : ascii) (s : string) : string :=
  match s with
  | EmptyString => ""
  | String c s' => if Ascii.eqb c sep then "" else String c (upto sep s')
  end.

(** The fields of a store that no statement of [updateStore] assigns. *)
Definition untouched (s : IStore) :
    ObjectId * string * list string * list Qc * string * option string
    * ObjectId * Z :=
  (_id s, slug s, tags s, coordinates (location s), type (location s),
   photo s, author s, created s).

(** A handler that changes nothing of the state but the response. *)
Definition answers (h : M Signal) : Prop :=
  forall st, set_response None (h st).2 = set_response None st.

(** The stores other than the one with the id, by position. *)
Definition others (id : option string) (db : list IStore) : list (option IStore) :=
  (fun d => if bool_decide (id = Some (_id d)) then None else Some d) <$> db.

(** The routes that only read. *)
Definition isGet (r : Route) : bool :=
  match r with
  | POST_add | POST_add_id => false
  | _ => true
  end.

(* ===================================================================== *)
(** ** The user controller (controllers/userController.ts) *)
(* ===================================================================== *)

Module UserController.

(** The registration form and the flash messages of the session, both
    JavaScript objects used as maps. *)
Record Session := {
  form : gmap string string;
  flashStore : gmap string (list string)
}.

(** What [validateRegister] did: rendered the register view with the
    body, the flashes and the title, or called [next()]. *)
Inductive Reply :=
| Rendered (view : string) (body : gmap string string)
    (flashes : gmap string (list string)) (title : string)
| Continued.

(** express-validator reads a missing field as the empty string. *)
Definition toString (v : option string) : string := default "" v.
Definition notEmpty (v : option string) : bool :=
  negb (bool_decide (toString v = "")).
(** [.equals(comparison)]: the field, as a string, is the comparison. *)
Definition equals (v comparison : option string) : bool :=
  bool_decide (comparison = Some (toString v)).

(** [request.flash(kind, messages)] and [request.flash()], which hands
    out all messages and empties the store. *)
Definition flashAll (kind : string) (messages : list string)
    (store : gmap string (list string)) : gmap string (list string) :=
  match messages with
  | [] => store
  | _ => <[kind := default [] (store !! kind) ++ messages]> store
  end.

Section Validators.
(** validator.js: [isEmail], and what [normalizeEmail] with the two gmail
    options of the handler makes of the email field. *)
Variable isEmail : string -> bool.
Variable normalizeEmail : option string -> option string.

Definition check (ok : bool) (message : string) : list string :=
  if ok then [] else [message].

Definition sanitizeEmail (b : gmap string string) : gmap string string :=
  match normalizeEmail (b !! "email") with
  | Some e => <["email" := e]> b
  | None => delete "email" b
  end.

(** The checks of [validateRegister], in the order of the source; the
    email is normalized after its check and before the password checks. *)
Definition validationErrors (b : gmap string string) : list string :=
  let e1 := check (notEmpty (b !! "name")) "You must supply a name!" in
  let e2 := check (isEmail (toString (b !! "email"))) "That Email is not valid!" in
  let b' := sanitizeEmail b in
  let e3 := check (notEmpty (b' !! "password")) "Password Cannot be Blank!" in
  let e4 := check (notEmpty (b' !! "password-confirm"))
              "Confirmed Password cannot be blank!" in
  let e5 := check (equals (b' !! "password-confirm") (b' !! "password"))
              "Oops! Your passwords do not match" in
  e1 ++ e2 ++ e3 ++ e4 ++ e5.

Definition validateRegister (s : Session) : Reply * Session :=
  let errors := validationErrors (form s) in
  let body := sanitizeEmail (form s) in
  match errors with
  | [] => (Continued, {| form := body; flashStore := flashStore s |})
  | _ =>
      let store := flashAll "error" errors (flashStore s) in
      (Rendered "register" body store "Register",
       {| form := body; flashStore := ∅ |})
  end.

End Validators.

End UserController.

(* ===================================================================== *)
(** ** More sample data *)
(* ===================================================================== *)

Module Sample.

Definition pdf : File :=
  {| mimetype := "application/pdf"; buffer := [Byte.x25; Byte.x50] |}.
(** An image whose bytes do not decode. *)
Definition broken : File := {| mimetype := "image/png"; buffer := [] |}.

Definition withFile (f : option File) (st : State) : State :=
  set_request
    {| params := params (request st); query := query (request st);
       body := body (request st); user := user (request st); file := f |} st.
Definition withUser (u : option User.IUserModel) (st : State) : State :=
  set_request
    {| params := params (request st); query := query (request st);
       body := body (request st); user := u; file := file (request st) |} st.
Definition withBody (b : Body) (st : State) : State :=
  set_request (set_body b (request st)) st.
Definition withParams (ps : gmap string string) (st : State) : State :=
  set_request
    {| params := ps; query := query (request st);
       body := body (request st); user := user (request st);
       file := file (request st) |} st.

(** The collaborators of [Fixture], with a decoder that reads every buffer
    as a bitmap of 2000 x 1. *)
Definition flatPorts : Ports :=
  {| sanitize := sanitize (Ports := Fixture.ports);
     decode := fun _ => Some {| Jimp.width := 2000; Jimp.height := 1 |};
     parseFloat := parseFloat (Ports := Fixture.ports);
     distance := distance (Ports := Fixture.ports);
     textScore := textScore (Ports := Fixture.ports);
     publicDirectory := publicDirectory (Ports := Fixture.ports) |}.
(** A content area that refuses every write. *)
Definition fullDisk (st : State) : State := set_refuses (fun _ => true) st.
(** The create with a photo, after three names have been drawn. *)
Definition fourthPhoto : State := set_draws 3 Fixture.photoCreate.

(** A create whose form names a photo, with no file attached. *)
Definition ghostPhoto : Body := set_b_photo (Some "ghost.png") Fixture.newStore.
(** A patch without a location. *)
Definition noLocation : Body := set_b_location None Fixture.patch.

(** validator.js, for the examples: an email has an at sign in it, and
    normalizing lower-cases nothing. *)
Definition isEmail (s : string) : bool :=
  existsb (Ascii.eqb "@"%char) (list_ascii_of_string s).
Definition normalizeEmail (v : option string) : option string := v.

Definition goodForm : gmap string string :=
  {[ "name" := "Alice"; "email" := "alice@example.com";
     "password" := "secret"; "password-confirm" := "secret" ]}.
Definition badForm : gmap string string :=
  {[ "name" := "Alice"; "email" := "alice.example.com";
     "password" := "secret"; "password-confirm" := "" ]}.

End Sample.

(** Opening the monad of a handler body, down to the state it runs on. *)
Ltac open_handler :=
  unfold mbind, M_bind, mret, M_ret, mthrow, M_throw,
    getBody, setBody, param, queryParam, findOne, find, draw;
  unfold gets, modify.

(* ===================================================================== *)
(** ** The definitions at work *)
(* ===================================================================== *)

Example slug_blue_moon : Slug.deriveSlug "Blue Moon Cafe" = "blue-moon-cafe".
Proof. reflexivity. Qed.
Example slug_messy : Slug.deriveSlug "  --Joe's   Pub & Grill!! -- " = "joes-pub-grill".
Proof. vm_compute. reflexivity. Qed.
Example slug_second :
  Slug.newSlug ["blue-moon-cafe"] "Blue Moon Cafe" = "blue-moon-cafe-2".
Proof. vm_compute. reflexivity. Qed.

Example jimp_resize_2000x1000 :
  Jimp.resize 800 Jimp.AUTO {| Jimp.width := 2000; Jimp.height := 1000 |}
  = Jimp.Done {| Jimp.width := 800; Jimp.height := 400 |}.
Proof. vm_compute. reflexivity. Qed.

(** The height is rounded from a product of doubles, not from the exact
    quotient: 145 * 800 / 1856 is 62.5, which would round to 63, but
    800 / 1856 is not a double, and the product with the nearest double is
    just below 62.5. *)
Example jimp_resize_1856x145 :
  Jimp.resize 800 Jimp.AUTO {| Jimp.width := 1856; Jimp.height := 145 |}
  = Jimp.Done {| Jimp.width := 800; Jimp.height := 62 |}.
Proof. vm_compute. reflexivity. Qed.
Example jimp_resize_1984x155 :
  Jimp.resize 800 Jimp.AUTO {| Jimp.width := 1984; Jimp.height := 155 |}
  = Jimp.Done {| Jimp.width := 800; Jimp.height := 62 |}.
Proof. vm_compute. reflexivity. Qed.

(** A height that rounds to no pixel at all is refused by the resizer. *)
Example jimp_resize_2000x1 :
  Jimp.resize 800 Jimp.AUTO {| Jimp.width := 2000; Jimp.height := 1 |}
  = Jimp.Refused "Invalid settings specified for the resizer.".
Proof. vm_compute. reflexivity. Qed.
Example jimp_resize_auto_auto :
  Jimp.resize Jimp.AUTO Jimp.AUTO {| Jimp.width := 2000; Jimp.height := 1000 |}
  = Jimp.Refused "w and h cannot both be set to auto".
Proof. reflexivity. Qed.

(** [path.join] drops empty arguments and normalizes what it joins. *)
Example path_join_plain :
  path_join ["public"; "uploads"; "r0.jpeg"] = "public/uploads/r0.jpeg".
Proof. vm_compute. reflexivity. Qed.
Example path_join_empty_first :
  path_join [""; "uploads"; "r0.jpeg"] = "uploads/r0.jpeg".
Proof. vm_compute. reflexivity. Qed.
Example path_join_absolute :
  path_join ["/srv//app/"; "./public"; "uploads"; "../uploads/r0.jpeg"]
  = "/srv/app/public/uploads/r0.jpeg".
Proof. vm_compute. reflexivity. Qed.
Example path_join_nothing : path_join [""; ""] = ".".
Proof. vm_compute. reflexivity. Qed.

(* ===================================================================== *)
(** ** Facts about the slug generator *)
(* ===================================================================== *)

Module SlugFacts.
Import Slug.

Lemma space_not_alnum c : Ascii.is_space c = true -> is_alnum c = false.
Proof. destruct c as [[] [] [] [] [] [] [] []]; vm_compute; congruence. Qed.

Lemma hyphen_not_alnum c : is_hyphen c = true -> is_alnum c = false.
Proof. destruct c as [[] [] [] [] [] [] [] []]; vm_compute; congruence. Qed.

Lemma keep_cases c : keep c = true -> is_hyphen c = false -> is_alnum c = true.
Proof. unfold keep. destruct (is_alnum c), (is_hyphen c); simpl; congruence. Qed.

Lemma lower_alnum_stable c : is_alnum c = true -> to_lower c = c.
Proof. destruct c as [[] [] [] [] [] [] [] []]; vm_compute; congruence. Qed.

(** *** squeeze *)

Lemma squeeze_head p c t :
  p c = false -> squeeze p (c :: t) = c :: squeeze p t.
Proof. intros E. simpl. rewrite E. reflexivity. Qed.

Lemma squeeze_run p c c' t :
  p c = true -> p c' = true -> squeeze p (c :: c' :: t) = squeeze p (c' :: t).
Proof. intros E E'. cbn [squeeze]. rewrite E, E'. reflexivity. Qed.

Lemma squeeze_end p c c' t :
  p c = true -> p c' = false ->
  squeeze p (c :: c' :: t) = hyphen :: c' :: squeeze p t.
Proof. intros E E'. cbn [squeeze]. rewrite E, E'. reflexivity. Qed.

Lemma squeeze_last p c : p c = true -> squeeze p [c] = [hyphen].
Proof. intros E. cbn [squeeze]. rewrite E. reflexivity. Qed.

Lemma kept_cons c l : kept (c :: l) = keep c && kept l.
Proof. reflexivity. Qed.

Lemma some_alnum_cons c l : some_alnum (c :: l) = is_alnum c || some_alnum l.
Proof. reflexivity. Qed.

Lemma squeeze_kept l : kept l = true -> kept (squeeze is_hyphen l) = true.
Proof.
  induction l as [|c t IH]; [done|].
  rewrite kept_cons. intros [Hc Ht]%andb_true_iff. specialize (IH Ht).
  destruct (is_hyphen c) eqn:Ec.
  - destruct t as [|c' t']; [rewrite squeeze_last by done; reflexivity|].
    destruct (is_hyphen c') eqn:Ec'.
    + rewrite squeeze_run by done. exact IH.
    + rewrite squeeze_end by done. rewrite squeeze_head in IH by done.
      rewrite kept_cons. exact IH.
  - rewrite squeeze_head by done. rewrite kept_cons, Hc. exact IH.
Qed.

Lemma no_double_cons c c' t :
  no_double (c :: c' :: t) =
  negb (is_hyphen c && is_hyphen c') && no_double (c' :: t).
Proof. reflexivity. Qed.

Lemma squeeze_no_double l : no_double (squeeze is_hyphen l) = true.
Proof.
  induction l as [|c t IH]; [reflexivity|].
  destruct (is_hyphen c) eqn:Ec.
  - destruct t as [|c' t']; [rewrite squeeze_last by done; reflexivity|].
    destruct (is_hyphen c') eqn:Ec'.
    + rewrite squeeze_run by done. exact IH.
    + rewrite squeeze_end by done. rewrite squeeze_head in IH by done.
      rewrite no_double_cons, Ec', andb_false_r. exact IH.
  - rewrite squeeze_head by done.
    destruct (squeeze is_hyphen t) as [|c' t'] eqn:Es; [reflexivity|].
    rewrite no_double_cons, Ec. exact IH.
Qed.

Lemma squeeze_some_alnum p l :
  (forall c, p c = true -> is_alnum c = false) ->
  some_alnum l = true -> some_alnum (squeeze p l) = true.
Proof.
  intros Hp. induction l as [|c t IH]; [done|].
  rewrite some_alnum_cons.
  destruct (p c) eqn:Ec.
  - rewrite (Hp c Ec). intros Ht. specialize (IH Ht).
    destruct t as [|c' t']; [done|].
    destruct (p c') eqn:Ec'.
    + rewrite squeeze_run by done. exact IH.
    + rewrite squeeze_end by done. rewrite squeeze_head in IH by done.
      rewrite some_alnum_cons. rewrite IH. apply orb_true_r.
  - rewrite squeeze_head by done. rewrite some_alnum_cons.
    destruct (is_alnum c); [done|]. exact IH.
Qed.

(** *** strip *)

Lemma strip_kept l : kept (strip l) = true.
Proof.
  unfold kept, strip. apply forallb_forall.
  intros c [_ Hc]%filter_In. exact Hc.
Qed.

Lemma strip_some_alnum l : some_alnum l = true -> some_alnum (strip l) = true.
Proof.
  unfold some_alnum, strip.
  intros (c & Hin & Hc)%existsb_exists. apply existsb_exists.
  exists c. split; [|exact Hc]. apply filter_In. split; [exact Hin|].
  unfold keep. rewrite Hc. reflexivity.
Qed.

(** *** trim *)

Lemma no_double_tail c t : no_double (c :: t) = true -> no_double t = true.
Proof.
  simpl. destruct t; [done|]. intros [_ ?]%andb_true_iff. done.
Qed.

Lemma trim_left_kept l : kept l = true -> kept (trim_left l) = true.
Proof.
  induction l as [|c t IH]; [done|]. intros Hk. simpl.
  destruct (is_hyphen c); [|exact Hk].
  apply IH. unfold kept in *. simpl in Hk. apply andb_true_iff in Hk. tauto.
Qed.

Lemma trim_left_no_double l :
  no_double l = true -> no_double (trim_left l) = true.
Proof.
  induction l as [|c t IH]; [done|]. intros Hk. simpl trim_left.
  destruct (is_hyphen c); [|exact Hk].
  apply IH. eapply no_double_tail, Hk.
Qed.

Lemma trim_left_head l c t :
  trim_left l = c :: t -> is_hyphen c = false.
Proof.
  induction l as [|c0 t0 IH]; [done|]. simpl.
  destruct (is_hyphen c0) eqn:E; [exact IH|].
  intros [= <- <-]. exact E.
Qed.

Lemma trim_left_some_alnum l :
  some_alnum l = true -> some_alnum (trim_left l) = true.
Proof.
  unfold some_alnum. induction l as [|c t IH]; [done|]. simpl trim_left.
  destruct (is_hyphen c) eqn:E; [|done].
  simpl. rewrite (hyphen_not_alnum c E). exact IH.
Qed.

Lemma trim_right_head l c t :
  trim_right l = c :: t -> exists t0, l = c :: t0.
Proof.
  destruct l as [|c0 t0]; [done|]. simpl.
  destruct (trim_right t0); [destruct (is_hyphen c0)|]; intros [= <- <-]; eauto.
Qed.

Lemma trim_right_some_alnum l :
  some_alnum l = true -> some_alnum (trim_right l) = true.
Proof.
  unfold some_alnum. induction l as [|c t IH]; [done|]. simpl.
  destruct (is_alnum c) eqn:Ea; simpl.
  - intros _. destruct (trim_right t).
    + destruct (is_hyphen c) eqn:Eh.
      * rewrite (hyphen_not_alnum c Eh) in Ea. done.
      * simpl. rewrite Ea. done.
    + simpl. rewrite Ea. done.
  - intros Ht. specialize (IH Ht). destruct (trim_right t); [done|].
    change (is_alnum c || existsb is_alnum (a :: l) = true).
    rewrite IH. apply orb_true_r.
Qed.

Lemma trim_right_segment l :
  kept l = true -> no_double l = true -> segment (trim_right l) = true.
Proof.
  induction l as [|c t IH]; [done|].
  intros Hk Hd. unfold kept in Hk. simpl in Hk.
  apply andb_true_iff in Hk as [Hc Ht].
  specialize (IH Ht (no_double_tail _ _ Hd)).
  simpl trim_right. destruct (trim_right t) as [|c' t'] eqn:Et.
  - destruct (is_hyphen c) eqn:Eh; [done|].
    simpl. rewrite (keep_cases c Hc Eh). done.
  - destruct (trim_right_head _ _ _ Et) as [t0 ->].
    simpl segment at 1. destruct (is_alnum c) eqn:Ea; [exact IH|].
    assert (is_hyphen c = true) as Eh.
    { unfold keep in Hc. rewrite Ea in Hc. exact Hc. }
    rewrite Eh. apply andb_true_iff. split; [|exact IH].
    simpl in Hd. rewrite Eh in Hd. simpl in Hd.
    apply andb_true_iff in Hd as [Hd _]. apply negb_true_iff in Hd.
    unfold kept in Ht. simpl in Ht. apply andb_true_iff in Ht as [Hc' _].
    exact (keep_cases c' Hc' Hd).
Qed.

Lemma trim_slug_chars l :
  kept l = true -> no_double l = true -> trim l <> [] ->
  slug_chars (trim l) = true.
Proof.
  intros Hk Hd Hne. unfold trim in *.
  pose proof (trim_right_segment _ (trim_left_kept _ Hk) (trim_left_no_double _ Hd)) as Hs.
  destruct (trim_right (trim_left l)) as [|c t] eqn:Et; [done|].
  unfold slug_chars. rewrite Hs, andb_true_r.
  destruct (trim_right_head _ _ _ Et) as [t0 Ht0].
  pose proof (trim_left_head _ _ _ Ht0) as Eh.
  apply keep_cases; [|exact Eh].
  pose proof (trim_left_kept _ Hk) as Hk'. rewrite Ht0 in Hk'.
  unfold kept in Hk'. simpl in Hk'. apply andb_true_iff in Hk'. tauto.
Qed.


(** *** the whole pipeline *)

Lemma map_lower_some_alnum l :
  existsb (fun c => is_alnum (to_lower c)) l = some_alnum (map to_lower l).
Proof. unfold some_alnum. induction l as [|c t IH]; simpl; congruence. Qed.

Lemma slugify_some_alnum l :
  some_alnum (map to_lower l) = true -> some_alnum (slugify l) = true.
Proof.
  intros Hl. unfold slugify, trim.
  apply trim_right_some_alnum, trim_left_some_alnum.
  apply squeeze_some_alnum; [exact hyphen_not_alnum|].
  apply strip_some_alnum.
  apply squeeze_some_alnum; [exact space_not_alnum|exact Hl].
Qed.

Lemma slugify_empty_or_pattern l :
  slugify l = [] \/ slug_chars (slugify l) = true.
Proof.
  destruct (slugify l) eqn:E; [left; reflexivity|right].
  rewrite <- E. unfold slugify in *. apply trim_slug_chars.
  - apply squeeze_kept, strip_kept.
  - apply squeeze_no_double.
  - rewrite E. done.
Qed.

Lemma slugify_pattern l :
  some_alnum (map to_lower l) = true -> slug_chars (slugify l) = true.
Proof.
  intros Hl. destruct (slugify_empty_or_pattern l) as [E|E]; [|exact E].
  apply slugify_some_alnum in Hl. rewrite E in Hl. done.
Qed.

Lemma trim_right_In l x : In x (trim_right l) -> In x l.
Proof.
  induction l as [|c t IH]; [done|]. simpl.
  destruct (trim_right t) eqn:Et.
  - destruct (is_hyphen c); simpl; tauto.
  - intros [->|Hx]; [by left|right]. apply IH. exact Hx.
Qed.

Lemma trim_left_In l x : In x (trim_left l) -> In x l.
Proof.
  induction l as [|c t IH]; [done|]. simpl.
  destruct (is_hyphen c); [right; by apply IH|done].
Qed.

Lemma squeeze_In p l x : In x (squeeze p l) -> x = hyphen \/ In x l.
Proof.
  induction l as [|c t IH]; [done|].
  destruct (p c) eqn:E0.
  - destruct t as [|c1 t1].
    { rewrite squeeze_last by done. intros [<-|[]]. by left. }
    destruct (p c1) eqn:E1.
    + rewrite squeeze_run by done. intros Hx%IH. simpl in *. tauto.
    + rewrite squeeze_end by done. rewrite squeeze_head in IH by done.
      intros [<-|Hx]; [by left|]. apply IH in Hx. simpl in *. tauto.
  - rewrite squeeze_head by done. intros [<-|Hx]; [right; by left|].
    apply IH in Hx. simpl. tauto.
Qed.

Lemma slugify_In l x :
  In x (slugify l) -> x = hyphen \/ In x (map to_lower l).
Proof.
  unfold slugify, trim. intros Hx.
  apply trim_right_In, trim_left_In, squeeze_In in Hx as [->|Hx]; [by left|].
  unfold strip in Hx. apply filter_In in Hx as [Hx _].
  apply squeeze_In in Hx. exact Hx.
Qed.

Lemma slugify_no_alnum l :
  some_alnum (map to_lower l) = false -> slugify l = [].
Proof.
  intros Hl. destruct (slugify_empty_or_pattern l) as [E|E]; [exact E|].
  exfalso.
  destruct (slugify l) as [|c t] eqn:Es; [done|].
  unfold slug_chars in E. apply andb_true_iff in E as [Ec _].
  destruct (slugify_In l c) as [->|Hin]; [rewrite Es; by left|done|].
  assert (some_alnum (map to_lower l) = true); [|congruence].
  apply existsb_exists. eauto.
Qed.

Lemma slugPattern_string l :
  slugPattern (string_of_list_ascii l) = slug_chars l.
Proof. unfold slugPattern. by rewrite list_ascii_of_string_of_list_ascii. Qed.

Lemma deriveSlug_pattern name :
  hasAlnum name = true -> slugPattern (deriveSlug name) = true.
Proof.
  unfold hasAlnum, deriveSlug. rewrite map_lower_some_alnum, slugPattern_string.
  apply slugify_pattern.
Qed.

Lemma deriveSlug_empty name :
  hasAlnum name = false -> deriveSlug name = "".
Proof.
  unfold hasAlnum, deriveSlug. rewrite map_lower_some_alnum.
  intros ->%slugify_no_alnum. reflexivity.
Qed.


(** *** collision resolution *)

Lemma decimal_inj n m : decimal n = decimal m -> n = m.
Proof.
  unfold decimal. intros E.
  apply DecimalNat.Unsigned.to_uint_inj.
  assert (Some (Nat.to_uint n) = Some (Nat.to_uint m)) as [= ->]; [|done].
  rewrite <- !NilEmpty.usu. by rewrite E.
Qed.

Lemma string_app_inv_head (s t1 t2 : string) : s +:+ t1 = s +:+ t2 -> t1 = t2.
Proof. induction s as [|c s IH]; [done|]. intros [= E]. by apply IH. Qed.

Global Instance suffixed_inj candidate : Inj (=) (=) (suffixed candidate).
Proof.
  intros n m E. unfold suffixed in E.
  apply string_app_inv_head in E. apply (string_app_inv_head "-") in E.
  by apply decimal_inj.
Qed.

Lemma taken_spec slugs s : taken slugs s = true <-> s ∈ slugs.
Proof. unfold taken. apply bool_decide_eq_true. Qed.

Lemma firstUnused_range slugs candidate fuel : forall n,
  let r := firstUnused slugs candidate n fuel in
  (n <= r <= n + fuel)%nat /\
  (forall m, (n <= m < r)%nat -> suffixed candidate m ∈ slugs) /\
  ((r < n + fuel)%nat -> suffixed candidate r ∉ slugs).
Proof.
  induction fuel as [|fuel IH]; intros n; simpl.
  - split; [lia|]. split; intros; lia.
  - destruct (taken slugs (suffixed candidate n)) eqn:E.
    + destruct (IH (S n)) as (Hr & Hbelow & Hfree).
      split; [lia|]. split.
      * intros m Hm. destruct (decide (m = n)) as [->|Hne].
        -- by apply taken_spec.
        -- apply Hbelow. lia.
      * intros Hlt. apply Hfree. lia.
    + split; [lia|]. split; [intros; lia|].
      intros _ Hin%taken_spec. congruence.
Qed.

(** The search always ends on a suffix that is not in use: there are more
    suffixes within reach than slugs in the catalog. *)
Lemma firstUnused_free slugs candidate :
  suffixed candidate (firstUnused slugs candidate 2 (length slugs)) ∉ slugs.
Proof.
  destruct (firstUnused_range slugs candidate (length slugs) 2)
    as (Hr & Hbelow & Hfree).
  set (r := firstUnused slugs candidate 2 (length slugs)) in *.
  destruct (decide (r < 2 + length slugs)%nat) as [Hlt|Hge]; [by apply Hfree|].
  intros Hin.
  assert (r = 2 + length slugs)%nat as Hr' by lia.
  assert (suffixed candidate <$> seq 2 (S (length slugs)) ⊆+ slugs) as Hsub.
  { apply NoDup_submseteq.
    - apply (NoDup_fmap_2 _), NoDup_seq.
    - intros s (m & -> & Hm%elem_of_seq)%list_elem_of_fmap.
      destruct (decide (m = r)) as [->|Hne]; [exact Hin|].
      apply Hbelow. lia. }
  apply submseteq_length in Hsub.
  rewrite length_fmap, length_seq in Hsub. lia.
Qed.

Lemma firstUnused_first slugs candidate m :
  (2 <= m < firstUnused slugs candidate 2 (length slugs))%nat ->
  suffixed candidate m ∈ slugs.
Proof.
  destruct (firstUnused_range slugs candidate (length slugs) 2)
    as (_ & Hbelow & _). apply Hbelow.
Qed.

Lemma firstUnused_ge_2 slugs candidate :
  (2 <= firstUnused slugs candidate 2 (length slugs))%nat.
Proof.
  destruct (firstUnused_range slugs candidate (length slugs) 2)
    as (Hr & _ & _). lia.
Qed.

Lemma uniqueSlug_free slugs candidate : uniqueSlug slugs candidate ∉ slugs.
Proof.
  unfold uniqueSlug. destruct (taken slugs candidate) eqn:E.
  - apply firstUnused_free.
  - intros Hin%taken_spec. congruence.
Qed.

(** *** a suffixed slug keeps the pattern *)

Lemma digits_of_uint d :
  forallb is_digit (list_ascii_of_string (NilEmpty.string_of_uint d)) = true.
Proof. induction d; simpl; rewrite ?IHd; reflexivity. Qed.

Lemma decimal_digits n :
  forallb is_digit (list_ascii_of_string (decimal n)) = true.
Proof. apply digits_of_uint. Qed.

Lemma decimal_nonempty n : decimal n <> "".
Proof.
  unfold decimal. intros E.
  assert (Nat.to_uint n = Decimal.Nil) as En.
  { assert (Some (Nat.to_uint n) = Some Decimal.Nil) as [= ->]; [|done].
    rewrite <- NilEmpty.usu. by rewrite E. }
  pose proof (DecimalNat.Unsigned.of_to n) as Hn. rewrite En in Hn.
  simpl in Hn. subst n. done.
Qed.

Lemma digit_alnum c : is_digit c = true -> is_alnum c = true.
Proof. unfold is_alnum. intros ->. apply orb_true_r. Qed.

Lemma segment_alnums l : forallb is_alnum l = true -> segment l = true.
Proof.
  induction l as [|c t IH]; [done|]. simpl.
  intros [-> Ht]%andb_true_iff. by apply IH.
Qed.

Lemma segment_suffix l d c :
  segment l = true -> forallb is_alnum (c :: d) = true ->
  segment (l ++ hyphen :: c :: d) = true.
Proof.
  intros Hl Hd. induction l as [|a t IH].
  - simpl in *. apply andb_true_iff in Hd as [Hc Hd].
    rewrite Hc. simpl. by apply segment_alnums.
  - simpl in Hl. change ((a :: t) ++ hyphen :: c :: d)
      with (a :: (t ++ hyphen :: c :: d)).
    cbn [segment]. destruct (is_alnum a); [by apply IH|].
    destruct (is_hyphen a); [|done].
    destruct t as [|a' t']; [done|].
    apply andb_true_iff in Hl as [Ha' Ht].
    change ((a' :: t') ++ hyphen :: c :: d)
      with (a' :: (t' ++ hyphen :: c :: d)) in *.
    cbv iota. rewrite Ha'. simpl andb. by apply IH.
Qed.

Lemma list_ascii_app (s t : string) :
  list_ascii_of_string (s +:+ t) = list_ascii_of_string s ++ list_ascii_of_string t.
Proof. induction s as [|c s IH]; [done|]. simpl. by rewrite <- IH. Qed.

Lemma slug_chars_suffix l c d :
  slug_chars l = true -> forallb is_alnum (c :: d) = true ->
  slug_chars (l ++ hyphen :: c :: d) = true.
Proof.
  destruct l as [|a t]; [done|].
  intros [Ha Hs]%andb_true_iff Hd.
  pose proof (segment_suffix (a :: t) d c Hs Hd) as Hseg.
  change (is_alnum a && segment ((a :: t) ++ hyphen :: c :: d) = true).
  rewrite Ha, Hseg. reflexivity.
Qed.

Lemma suffixed_pattern candidate n :
  slugPattern candidate = true -> slugPattern (suffixed candidate n) = true.
Proof.
  unfold slugPattern, suffixed. rewrite !list_ascii_app.
  pose proof (decimal_digits n) as Hd. pose proof (decimal_nonempty n) as Hne.
  destruct (decimal n) as [|c d]; [done|]. clear Hne.
  intros Hc. apply (slug_chars_suffix _ c (list_ascii_of_string d) Hc).
  apply forallb_forall. intros x Hx. apply digit_alnum.
  eapply forallb_forall in Hd; eauto.
Qed.

Lemma uniqueSlug_pattern slugs candidate :
  slugPattern candidate = true -> slugPattern (uniqueSlug slugs candidate) = true.
Proof.
  intros Hc. unfold uniqueSlug. destruct (taken slugs candidate); [|exact Hc].
  by apply suffixed_pattern.
Qed.

(** *** the automaton reads the regular expression *)

Lemma star_alnum l : matches (Star (Class is_alnum)) l <-> forallb is_alnum l = true.
Proof.
  split.
  - intros Hm. remember (Star (Class is_alnum)) as r eqn:Er.
    induction Hm as [| | | |r l1 l2 H1 _ H2 IH2|]; try discriminate; [done|].
    injection Er as ->. inversion H1; subst. simpl.
    apply andb_true_iff. split; [done|]. by apply IH2.
  - induction l as [|c t IH]; [constructor|]. simpl.
    intros [Hc Ht]%andb_true_iff.
    apply (m_star_app _ [c] t); [by constructor|by apply IH].
Qed.

Lemma plus_alnum l :
  matches (Plus (Class is_alnum)) l <-> l <> [] /\ forallb is_alnum l = true.
Proof.
  split.
  - intros Hm. inversion Hm as [| | | | |r l1 l2 H1 H2]; subst.
    inversion H1; subst. apply star_alnum in H2. simpl.
    split; [done|]. by apply andb_true_iff.
  - intros [Hne Hl]. destruct l as [|c t]; [done|]. simpl in Hl.
    apply andb_true_iff in Hl as [Hc Ht].
    apply (m_plus _ [c] t); [by constructor|by apply star_alnum].
Qed.

Lemma is_hyphen_eq c : is_hyphen c = true -> c = hyphen.
Proof. unfold is_hyphen. by intros ?%Ascii.eqb_eq. Qed.

Lemma segment_app l1 l2 :
  forallb is_alnum l1 = true -> segment l2 = true -> segment (l1 ++ l2) = true.
Proof.
  induction l1 as [|c t IH]; [done|]. simpl.
  intros [-> Ht]%andb_true_iff Hl2. by apply IH.
Qed.

Lemma tail_segment l :
  matches tailRegex l -> segment l = true.
Proof.
  intros Hm. remember tailRegex as r eqn:Er.
  induction Hm as [| | | |r l1 l2 H1 _ H2 IH2|]; try discriminate; [done|].
  injection Er as ->. specialize (IH2 eq_refl).
  inversion H1 as [| |r1 r2 la lb Ha Hb| | |]; subst.
  inversion Ha; subst. apply plus_alnum in Hb as [Hne Hb].
  destruct lb as [|c' t']; [done|].
  change (segment (hyphen :: (c' :: t') ++ l2) = true).
  cbn [segment]. change (is_alnum hyphen) with false. cbv iota.
  change (is_hyphen hyphen) with true. cbv iota.
  simpl app. cbv iota.
  pose proof Hb as Hb'. simpl in Hb'. apply andb_true_iff in Hb' as [Hc' _].
  rewrite Hc'. simpl andb.
  change (segment ((c' :: t') ++ l2) = true). by apply segment_app.
Qed.

Lemma segment_split l :
  segment l = true ->
  exists l1 l2, l = l1 ++ l2 /\ forallb is_alnum l1 = true /\
                matches tailRegex l2 /\
                (l2 = [] \/ exists t, l2 = hyphen :: t).
Proof.
  induction l as [|c t IH]; intros Hs.
  - exists [], []. repeat split; [constructor|by left].
  - cbn [segment] in Hs. destruct (is_alnum c) eqn:Ea.
    + destruct (IH Hs) as (l1 & l2 & -> & H1 & H2 & H3).
      exists (c :: l1), l2. repeat split; [|done..]. simpl. by rewrite Ea.
    + destruct (is_hyphen c) eqn:Eh; [|done].
      apply is_hyphen_eq in Eh as ->.
      destruct t as [|c' t']; [done|].
      apply andb_true_iff in Hs as [Hc' Hs].
      destruct (IH Hs) as (l1 & l2 & Ht & H1 & H2 & H3).
      destruct l1 as [|a l1'].
      { exfalso. simpl in Ht. subst l2.
        destruct H3 as [?|[t0 [= -> _]]]; [done|].
        change (is_alnum hyphen) with false in Hc'. done. }
      exists [], (hyphen :: c' :: t'). repeat split; [|right; eauto].
      rewrite Ht.
      change (hyphen :: (a :: l1') ++ l2) with ((hyphen :: a :: l1') ++ l2).
      apply m_star_app; [|exact H2].
      apply (m_seq _ _ [hyphen] (a :: l1')); [constructor|].
      by apply plus_alnum.
Qed.

Lemma slug_chars_regex l : slug_chars l = true <-> matches slugRegex l.
Proof.
  split.
  - destruct l as [|c t]; [done|]. intros [Hc Hs]%andb_true_iff.
    destruct (segment_split _ Hs) as (l1 & l2 & Ht & H1 & H2 & H3).
    rewrite Ht. apply m_seq; [|exact H2]. apply plus_alnum. split; [|done].
    intros ->. simpl in Ht. subst l2.
    destruct H3 as [?|[t0 [= -> _]]]; [done|].
    change (is_alnum hyphen) with false in Hc. done.
  - intros Hm. inversion Hm as [| |r1 r2 l1 l2 H1 H2| | |]; subst.
    apply plus_alnum in H1 as [Hne H1]. apply tail_segment in H2.
    destruct l1 as [|c t]; [done|].
    change (is_alnum c && segment ((c :: t) ++ l2) = true).
    rewrite (segment_app _ _ H1 H2), andb_true_r.
    simpl in H1. apply andb_true_iff in H1. tauto.
Qed.

Lemma slugPattern_regex s :
  slugPattern s = true <-> matches slugRegex (list_ascii_of_string s).
Proof. apply slug_chars_regex. Qed.

Lemma lower_alphanumeric c : is_alnum (to_lower c) = alphanumeric c.
Proof. destruct c as [[] [] [] [] [] [] [] []]; vm_compute; reflexivity. Qed.

Lemma hasAlphanumeric_hasAlnum name : hasAlphanumeric name = hasAlnum name.
Proof.
  unfold hasAlphanumeric, hasAlnum.
  induction (list_ascii_of_string name) as [|c t IH]; [done|]. simpl.
  by rewrite lower_alphanumeric, IH.
Qed.

End SlugFacts.

(* ===================================================================== *)
(** ** Facts about the Store model *)
(* ===================================================================== *)

Section ModelFacts.
Context `{Ports}.

Lemma find_byId_id id db s :
  List.find (byId id) db = Some s -> id = Some (_id s).
Proof.
  intros [_ Hs]%find_some. unfold byId in Hs. by apply bool_decide_eq_true in Hs.
Qed.

Lemma find_byId_In id db s : List.find (byId id) db = Some s -> s ∈ db.
Proof. intros [Hs _]%find_some. by apply list_elem_of_In. Qed.

(** [save] writes over the document that [findOne] returned. *)
Lemma find_replaceDoc id db s s' :
  List.find (byId id) db = Some s -> _id s' = _id s ->
  List.find (byId id) (replaceDoc s' db) = Some s'.
Proof.
  intros Hf Hid. induction db as [|d rest IH]; [done|].
  simpl in Hf. simpl. unfold byId at 1 in Hf.
  destruct (decide (id = Some (_id d))) as [E|E].
  - rewrite bool_decide_eq_true_2 in Hf by done. injection Hf as ->.
    rewrite bool_decide_eq_true_2 by done.
    simpl. unfold byId. rewrite bool_decide_eq_true_2; [done|congruence].
  - rewrite bool_decide_eq_false_2 in Hf by done.
    pose proof (find_byId_id _ _ _ Hf) as Hs.
    rewrite bool_decide_eq_false_2 by congruence.
    simpl. unfold byId at 1. rewrite bool_decide_eq_false_2 by done.
    by apply IH.
Qed.

Lemma find_replaceDoc_other id db s' :
  id <> Some (_id s') ->
  List.find (byId id) (replaceDoc s' db) = List.find (byId id) db.
Proof.
  intros Hne. induction db as [|d rest IH]; [done|]. simpl.
  destruct (decide (_id d = _id s')) as [E|E].
  - rewrite bool_decide_eq_true_2 by done. simpl. unfold byId.
    rewrite !bool_decide_eq_false_2; [done| |done]. by rewrite E.
  - rewrite bool_decide_eq_false_2 by done. simpl. by rewrite IH.
Qed.

Lemma length_replaceDoc s db : length (replaceDoc s db) = length db.
Proof.
  induction db as [|d rest IH]; [done|]. simpl.
  destruct (bool_decide (_id d = _id s)); simpl; congruence.
Qed.

(** Writing back a document found by its id changes no identity, slug or
    author in the collection, whatever else it changes. *)
Lemma keys_replace_found id db s s' :
  List.find (byId id) db = Some s ->
  _id s' = _id s -> slug s' = slug s -> author s' = author s ->
  keys (replaceDoc s' db) = keys db.
Proof.
  intros Hf Hid Hslug Hauthor. unfold keys.
  induction db as [|d rest IH]; [done|].
  simpl in Hf. simpl. unfold byId at 1 in Hf.
  destruct (decide (id = Some (_id d))) as [E|E].
  - rewrite bool_decide_eq_true_2 in Hf by done. injection Hf as ->.
    rewrite bool_decide_eq_true_2 by done. simpl. congruence.
  - rewrite bool_decide_eq_false_2 in Hf by done.
    pose proof (find_byId_id _ _ _ Hf) as Hs.
    rewrite bool_decide_eq_false_2 by congruence.
    simpl. f_equal. by apply IH.
Qed.

Lemma sanitizeStore_keys s :
  _id (sanitizeStore s) = _id s /\ slug (sanitizeStore s) = slug s /\
  author (sanitizeStore s) = author s.
Proof. done. Qed.

Lemma assigned_keys b s :
  _id (assigned b s) = _id s /\ slug (assigned b s) = slug s /\
  author (assigned b s) = author s.
Proof. done. Qed.

End ModelFacts.

(* ===================================================================== *)
(** ** Facts about the update handler *)
(* ===================================================================== *)

Section UpdateFacts.
Context `{Ports}.

Lemma required_valid path n st :
  validName n -> exists s, required path n st = (Ok s, st).
Proof.
  intros (s & -> & Hs). exists s. unfold required.
  by rewrite bool_decide_eq_false_2.
Qed.

Lemma required_invalid path n st :
  ~ validName n -> required path n st = (Throw (ValidationError path), st).
Proof.
  intros Hn. unfold required. destruct n as [s|]; [|done].
  destruct (decide (s = "")) as [->|Hs]; [done|].
  exfalso. apply Hn. by exists s.
Qed.

(** No location in the body: the first statement throws. *)
Lemma updateStore_no_location st :
  b_location (body (request st)) = None ->
  updateStore st =
    (Throw (TypeError "Cannot set property 'type' of undefined"), st).
Proof.
  intros Hl. unfold updateStore, mbind, M_bind, getBody, gets. by rewrite Hl.
Qed.

(** Unknown id: the handler returns, having sent nothing. *)
Lemma updateStore_missing st l :
  b_location (body (request st)) = Some l ->
  List.find (byId (params (request st) !! "id")) (stores st) = None ->
  updateStore st = (Ok Return, typed l st).
Proof.
  intros Hl Hf.
  unfold updateStore, mbind, M_bind, getBody, gets, param, findOne, gets.
  rewrite Hl. simpl. rewrite Hf. reflexivity.
Qed.

(** Known id and a name that passes validation: the record is written
    back with the three assignments, whoever the user is. *)
Lemma updateStore_found st l oldStore :
  b_location (body (request st)) = Some l ->
  List.find (byId (params (request st) !! "id")) (stores st) = Some oldStore ->
  validName (b_name (body (request st))) ->
  updateStore st = (Ok Return, updated l oldStore st).
Proof.
  intros Hl Hf (n & Hn & Hne).
  unfold updated, assigned, typed.
  unfold updateStore, mbind, M_bind, getBody, gets, param, findOne, gets.
  rewrite Hl. simpl. rewrite Hf. simpl.
  unfold save, mbind, M_bind, required. simpl. rewrite Hn.
  rewrite bool_decide_eq_false_2 by done. reflexivity.
Qed.

(** Known id and a name that fails validation: nothing is written. *)
Lemma updateStore_invalid st l oldStore :
  b_location (body (request st)) = Some l ->
  List.find (byId (params (request st) !! "id")) (stores st) = Some oldStore ->
  ~ validName (b_name (body (request st))) ->
  updateStore st = (Throw (ValidationError "name"), typed l st).
Proof.
  intros Hl Hf Hn.
  unfold updateStore, mbind, M_bind, getBody, gets, param, findOne, gets.
  rewrite Hl. simpl. rewrite Hf. simpl.
  unfold save, mbind, M_bind. simpl.
  rewrite (required_invalid _ _ _ Hn). reflexivity.
Qed.

End UpdateFacts.

(* ===================================================================== *)
(** ** Routes: what each middleware leaves alone *)
(* ===================================================================== *)

Section RouteFacts.
Context `{Ports}.

Lemma catchErrors_state h st : (catchErrors h st).2 = (h st).2.
Proof. unfold catchErrors. by destruct (h st) as [[a|e] st']. Qed.

Lemma upload_state st : (upload st).2 = st.
Proof.
  unfold upload, mbind, M_bind, gets. simpl.
  destruct (file (request st)) as [f|]; [|done].
  by destruct (fileFilter f).
Qed.

Lemma upload_signal st :
  (upload st).1 = Ok Next \/ exists e, (upload st).1 = Ok (NextErr e).
Proof.
  unfold upload, mbind, M_bind, gets. simpl.
  destruct (file (request st)) as [f|]; [|by left].
  destruct (fileFilter f); [by left|right; eauto].
Qed.

(** A property of the state that every handler of a route keeps is kept by
    the route. *)
Lemma runRoute_keeps {X} (P : State -> X) handlers :
  Forall (fun h : M Signal => forall st, P (h st).2 = P st) handlers ->
  forall st, P (runRoute handlers st).2 = P st.
Proof.
  induction 1 as [|h rest Hh _ IH]; intros st; [done|]. simpl.
  specialize (Hh st). destruct (h st) as [[[]|e] st']; simpl in *;
    rewrite ?IH; done.
Qed.

Lemma resize_keeps_stores st : stores (resize st).2 = stores st.
Proof.
  unfold resize, jimp_read, jimp_resize, jimp_write. open_handler.
  cbn -[Jimp.resize]. destruct (file (request st)) as [f|]; [|done].
  cbn -[Jimp.resize]. destruct (decode (buffer f)) as [img|]; [|done].
  cbn -[Jimp.resize]. destruct (Jimp.resize 800 Jimp.AUTO img); done.
Qed.

Lemma resize_keeps_params st :
  params (request (resize st).2) = params (request st).
Proof.
  unfold resize, jimp_read, jimp_resize, jimp_write. open_handler.
  cbn -[Jimp.resize]. destruct (file (request st)) as [f|]; [|done].
  cbn -[Jimp.resize]. destruct (decode (buffer f)) as [img|]; [|done].
  cbn -[Jimp.resize]. destruct (Jimp.resize 800 Jimp.AUTO img); done.
Qed.

Lemma updateStore_cases st :
  (exists e, updateStore st = (Throw e, st) /\ b_location (body (request st)) = None) \/
  (exists l, b_location (body (request st)) = Some l /\
     ((updateStore st = (Ok Return, typed l st) /\
       List.find (byId (params (request st) !! "id")) (stores st) = None) \/
      (exists e, updateStore st = (Throw e, typed l st)) \/
      (exists oldStore,
         List.find (byId (params (request st) !! "id")) (stores st) = Some oldStore /\
         updateStore st = (Ok Return, updated l oldStore st)))).
Proof.
  destruct (b_location (body (request st))) as [l|] eqn:Hl.
  - right. exists l. split; [done|].
    destruct (List.find (byId (params (request st) !! "id")) (stores st))
      as [oldStore|] eqn:Hf.
    + right.
      destruct (b_name (body (request st))) as [n|] eqn:Hn.
      * destruct (decide (n = "")) as [->|Hne].
        -- left. eexists. apply (updateStore_invalid st l oldStore Hl Hf).
           rewrite Hn. intros (s & [= <-] & Hs). done.
        -- right. exists oldStore. split; [done|].
           apply updateStore_found; [done..|]. rewrite Hn. by exists n.
      * left. eexists. apply (updateStore_invalid st l oldStore Hl Hf).
        rewrite Hn. by intros (s & [=] & _).
    + left. split; [|done]. by apply updateStore_missing.
  - left. eexists. split; [|done]. by apply updateStore_no_location.
Qed.

Lemma updateStore_keeps_keys st : keys (stores (updateStore st).2) = keys (stores st).
Proof.
  destruct (updateStore_cases st)
    as [(e & -> & _)|(l & Hl & [[-> _]|[(e & ->)|(oldStore & Hf & ->)]])];
    try done.
  simpl. by eapply keys_replace_found.
Qed.

(** Equal keys: a lookup by id finds a document with the same slug and
    author. *)
Lemma find_keys id db db' s :
  keys db' = keys db -> List.find (byId id) db = Some s ->
  exists s', List.find (byId id) db' = Some s' /\
             slug s' = slug s /\ author s' = author s.
Proof.
  unfold keys. revert db'. induction db as [|d rest IH]; intros db' Hk Hf; [done|].
  destruct db' as [|d' rest']; [done|]. simpl in Hk.
  injection Hk as Hid Hslug Hauthor Hrest.
  simpl in Hf. simpl. unfold byId at 1 in Hf. unfold byId at 1. rewrite Hid.
  destruct (bool_decide (id = Some (_id d))).
  - injection Hf as <-. eauto.
  - by apply IH.
Qed.

End RouteFacts.

(* ===================================================================== *)
(** ** Update *)
(* ===================================================================== *)

(** C1. An update by a user who is not the store's author is expected to
    fail with the ownership error and leave the record alone.  On
    POST /add/s1 sent by Bob for Alice's store, no handler of the route
    calls [confirmOwner]: the request succeeds with a redirect and a
    success flash, and the stored record carries Bob's name and
    description. *)
Theorem update_by_non_author_is_applied :
  let out := handle (H := Fixture.ports) POST_add_id Fixture.strangerUpdate in
  author Fixture.blueMoon <> User._id Fixture.bob /\
  out.1 = Sent (Redirect "/stores/s1/edit") /\
  flashes out.2 = [("success", "Successfully updated Green Star")] /\
  stores out.2 <> stores Fixture.strangerUpdate /\
  (name <$> List.find (byId (Some "s1")) (stores out.2)) = Some (Some "Green Star").
Proof. vm_compute. repeat split; congruence. Qed.

(** The sibling handler of the edit form does call the guard: the same
    request on GET /stores/s1/edit fails with the ownership error. *)
Example edit_by_non_author_is_refused :
  (handle (H := Fixture.ports) GET_stores_id_edit Fixture.strangerUpdate).1
  = Failed (Err "You must own a store in order to edit it!").
Proof. reflexivity. Qed.

(** The outcome of an update does not depend on who sends it. *)
Lemma updateStore_ignores_user `{Ports} st u :
  let st' := set_request
    {| params := params (request st); query := query (request st);
       body := body (request st); user := u; file := file (request st) |} st in
  (updateStore st').1 = (updateStore st).1 /\
  stores (updateStore st').2 = stores (updateStore st).2.
Proof.
  intros st'.
  destruct (b_location (body (request st))) as [l|] eqn:Hl.
  2:{ rewrite !updateStore_no_location by done. done. }
  destruct (List.find (byId (params (request st) !! "id")) (stores st))
    as [oldStore|] eqn:Hf.
  2:{ rewrite (updateStore_missing st l), (updateStore_missing st' l) by done. done. }
  destruct (b_name (body (request st))) as [n|] eqn:Hn.
  - destruct (decide (n = "")) as [->|Hne].
    + rewrite (updateStore_invalid st l oldStore), (updateStore_invalid st' l oldStore);
        try done; simpl; rewrite Hn; intros (s & [= <-] & Hs); done.
    + rewrite (updateStore_found st l oldStore), (updateStore_found st' l oldStore);
        try done; simpl; rewrite Hn; by exists n.
  - rewrite (updateStore_invalid st l oldStore), (updateStore_invalid st' l oldStore);
      try done; simpl; rewrite Hn; by intros (s & [=] & _).
Qed.

(** C2. Whatever the request carries, POST /add/:id leaves the slug and
    the author of every store in the catalog as they were: a store found
    under an id before the request is found under it afterwards with the
    same slug and the same author.  The slug is not derived again when the
    name changes. *)
Theorem update_keeps_slug_and_author `{Ports} (st : State) (id : ObjectId) (s : IStore) :
  List.find (byId (Some id)) (stores st) = Some s ->
  exists s',
    List.find (byId (Some id)) (stores (handle POST_add_id st).2) = Some s' /\
    slug s' = slug s /\ author s' = author s.
Proof.
  apply find_keys. unfold handle.
  apply (runRoute_keeps (fun st => keys (stores st))).
  repeat constructor; intros st0.
  - by rewrite upload_state.
  - by rewrite catchErrors_state, resize_keeps_stores.
  - by rewrite catchErrors_state, updateStore_keeps_keys.
Qed.

Lemma update_keeps_slug_and_author_witness :
  let out := handle (H := Fixture.ports) POST_add_id Fixture.ownerUpdate in
  (name <$> List.find (byId (Some "s1")) (stores out.2)) = Some (Some "Green Star") /\
  exists s',
    List.find (byId (Some "s1")) (stores out.2) = Some s' /\
    slug s' = "blue-moon-cafe" /\ author s' = "u1".
Proof.
  split; [reflexivity|].
  exact (update_keeps_slug_and_author (H := Fixture.ports)
           Fixture.ownerUpdate "s1" Fixture.blueMoon eq_refl).
Defined.

(** C3. An update by the owner is expected to take the address from the
    patch and to apply the photo and the tags that come with it.  On
    POST /add/s1 sent by Alice with name, description, address
    "9 New Rd", photo and tags, the stored address is the description
    "juice", and photo and tags are the old ones. *)
Theorem update_by_owner_misses_fields :
  let out := handle (H := Fixture.ports) POST_add_id Fixture.ownerUpdate in
  (b_location Fixture.patch ≫= bl_address) = Some "9 New Rd" /\
  b_photo Fixture.patch = Some "new.png" /\
  b_tags Fixture.patch = ["bar"] /\
  out.1 = Sent (Redirect "/stores/s1/edit") /\
  exists s,
    List.find (byId (Some "s1")) (stores out.2) = Some s /\
    name s = Some "Green Star" /\
    description s = Some "juice" /\
    address (location s) = Some "juice" /\
    photo s = Some "old.png" /\
    tags s = ["cafe"; "wifi"].
Proof. vm_compute. repeat split. eexists. repeat split. Qed.

(** What a successful update stores, for every request: name and
    description of the body, the description again as address, and every
    other field of the old record. *)
Lemma updateStore_stores `{Ports} st l oldStore :
  b_location (body (request st)) = Some l ->
  List.find (byId (params (request st) !! "id")) (stores st) = Some oldStore ->
  validName (b_name (body (request st))) ->
  let b := body (request st) in
  exists st' newStore,
    updateStore st = (Ok Return, st') /\
    List.find (byId (params (request st) !! "id")) (stores st') = Some newStore /\
    name newStore = sanitize <$> b_name b /\
    description newStore = sanitize <$> b_description b /\
    address (location newStore) = sanitize <$> b_description b /\
    coordinates (location newStore) = coordinates (location oldStore) /\
    photo newStore = photo oldStore /\
    tags newStore = tags oldStore /\
    slug newStore = slug oldStore /\
    author newStore = author oldStore.
Proof.
  intros Hl Hf Hn b.
  exists (updated l oldStore st), (sanitizeStore (assigned b oldStore)).
  split; [by apply updateStore_found|].
  split; [|done]. simpl. by apply (find_replaceDoc _ _ oldStore).
Qed.

(** C8. An update under an id that identifies no store is expected to fail
    with a not-found error.  On POST /add/s9 the handler finds nothing and
    returns: no error is raised, [next] is not called, no response is
    sent, and the catalog is as before. *)
Theorem update_unknown_id_hangs :
  let out := handle (H := Fixture.ports) POST_add_id Fixture.unknownUpdate in
  List.find (byId (Some "s9")) (stores Fixture.unknownUpdate) = None /\
  out.1 = Hung /\
  response out.2 = None /\
  stores out.2 = stores Fixture.unknownUpdate.
Proof. vm_compute. repeat split. Qed.

(** The sibling handler of the store page does report an unknown slug:
    it calls [next], and the route ends in the not-found handler. *)
Example unknown_slug_is_not_found :
  (handle (H := Fixture.ports) GET_store_slug Fixture.unknownUpdate).1 = NotFound.
Proof. reflexivity. Qed.

(** For every request with an unknown id, the wrapped handler returns
    without a response and without an error. *)
Lemma updateStore_unknown_id `{Ports} st l :
  b_location (body (request st)) = Some l ->
  List.find (byId (params (request st) !! "id")) (stores st) = None ->
  exists st',
    catchErrors updateStore st = (Ok Return, st') /\
    response st' = response st /\ stores st' = stores st /\ log st' = log st.
Proof.
  intros Hl Hf. exists (typed l st). unfold catchErrors.
  by rewrite (updateStore_missing st l).
Qed.

(* ===================================================================== *)
(** ** Search and proximity *)
(* ===================================================================== *)

Section QueryFacts.
Context `{Ports}.

Global Instance byScore_total : Total byScore.
Proof. intros a b. unfold byScore. destruct (total Qcle a.2 b.2); auto. Qed.
Global Instance byScore_trans : Transitive byScore.
Proof. intros a b c. unfold byScore. intros ? ?. by etrans. Qed.

Global Instance nearer_total point : Total (nearer point).
Proof. intros a b. unfold nearer. apply (total Qcle). Qed.
Global Instance nearer_trans point : Transitive (nearer point).
Proof. intros a b c. unfold nearer. intros ? ?. by etrans. Qed.

Lemma StronglySorted_take {A} (R : relation A) n l :
  StronglySorted R l -> StronglySorted R (take n l).
Proof.
  intros Hl. rewrite <- (take_drop n l) in Hl.
  by apply StronglySorted_app_1_l in Hl.
Qed.

Lemma elem_of_take {A} (x : A) n l : x ∈ take n l -> x ∈ l.
Proof.
  intros Hx. rewrite <- (take_drop n l). apply elem_of_app. by left.
Qed.

Lemma elem_of_textSearch q db s sc :
  (s, sc) ∈ textSearch q db <-> s ∈ db /\ textScore q s = Some sc.
Proof.
  unfold textSearch. rewrite list_elem_of_omap. split.
  - intros (s' & Hs' & Hsc). destruct (textScore q s') as [sc'|] eqn:E; [|done].
    simpl in Hsc. injection Hsc as <- <-. done.
  - intros [Hs Hsc]. exists s. split; [done|]. by rewrite Hsc.
Qed.

Lemma elem_of_near point maxDistance db s :
  s ∈ near point maxDistance db <->
  s ∈ db /\ (metres point s <= maxDistance)%Qc.
Proof.
  unfold near. rewrite merge_sort_Permutation.
  rewrite list_elem_of_In, filter_In, <- list_elem_of_In.
  by rewrite bool_decide_eq_true.
Qed.

Lemma runRoute_single h st r st' :
  h st = (Ok Return, st') -> response st' = Some r ->
  runRoute [catchErrors h] st = (Sent r, st').
Proof.
  intros Hh Hr. unfold runRoute, catchErrors, finished. by rewrite Hh, Hr.
Qed.

(** The search returns what the ranked, cut list holds. *)
Lemma searchStores_run st q :
  query (request st) !! "q" = Some q ->
  let results := limit 5 (sortByScore (textSearch q (stores st))) in
  searchStores st =
    (Ok Return,
     set_response (Some (Json ((fun d => toDoc (Some d.2) d.1) <$> results))) st).
Proof.
  intros Hq. unfold searchStores, mbind, M_bind, queryParam, gets. simpl.
  by rewrite Hq.
Qed.

Lemma mapStores_run st lng lat x y :
  query (request st) !! "lng" = Some lng ->
  query (request st) !! "lat" = Some lat ->
  parseFloat lng = Some x -> parseFloat lat = Some y ->
  let found := limit 10 (near [x; y] (Q2Qc (inject_Z 10000)) (stores st)) in
  mapStores st =
    (Ok Return,
     set_response
       (Some (Json (select "slug name description location photo" <$> found))) st).
Proof.
  intros Hlng Hlat Hx Hy.
  assert (mapM id ((fun v : option string => v ≫= parseFloat)
                     <$> [Some lng; Some lat]) = Some [x; y]) as Hp.
  { simpl. rewrite Hx, Hy. reflexivity. }
  unfold mapStores, mbind at 1 2 3, M_bind, queryParam, gets.
  cbv beta iota. rewrite Hlng, Hlat, Hp.
  unfold limit. by rewrite fmap_take.
Qed.

(** The projection of the proximity query, field by field. *)
Lemma select_near_fields s :
  select "slug name description location photo" s =
  {| d_id := _id s; d_name := name s; d_slug := Some (slug s);
     d_description := description s; d_tags := None;
     d_location := Some (location s); d_photo := photo s;
     d_author := None; d_created := None; d_score := None |}.
Proof. reflexivity. Qed.

End QueryFacts.

(** C4. For every query string and every catalog, GET /api/search answers
    with at most 5 stores, each a store of the catalog that matches the
    query and carrying its text score, in order of non-increasing score;
    the catalog is not changed. *)
Theorem search_limited_and_ranked `{Ports} (st : State) (q : string) :
  query (request st) !! "q" = Some q ->
  exists results : list (IStore * Qc),
    (handle GET_api_search st).1 =
      Sent (Json ((fun d => toDoc (Some d.2) d.1) <$> results)) /\
    stores (handle GET_api_search st).2 = stores st /\
    (length results <= 5)%nat /\
    StronglySorted (fun a b => (b.2 <= a.2)%Qc) results /\
    forall s sc, (s, sc) ∈ results -> s ∈ stores st /\ textScore q s = Some sc.
Proof.
  intros Hq. exists (limit 5 (sortByScore (textSearch q (stores st)))).
  unfold handle, initializeRoutes.
  rewrite (runRoute_single _ _ _ _ (searchStores_run st q Hq) eq_refl).
  split; [done|]. split; [done|]. split; [|split].
  - unfold limit. rewrite length_take. lia.
  - apply StronglySorted_take. unfold sortByScore.
    apply (StronglySorted_merge_sort byScore).
  - intros s sc Hin%elem_of_take. unfold sortByScore in Hin.
    rewrite merge_sort_Permutation in Hin. by apply elem_of_textSearch.
Qed.

Lemma search_limited_and_ranked_witness :
  exists results : list (IStore * Qc),
    (handle (H := Fixture.ports) GET_api_search Fixture.searchCoffee).1 =
      Sent (Json ((fun d => toDoc (Some d.2) d.1) <$> results)) /\
    stores (handle (H := Fixture.ports) GET_api_search Fixture.searchCoffee).2
      = stores Fixture.searchCoffee /\
    (length results <= 5)%nat /\
    StronglySorted (fun a b => (b.2 <= a.2)%Qc) results /\
    forall s sc, (s, sc) ∈ results ->
      s ∈ stores Fixture.searchCoffee /\
      textScore (Ports := Fixture.ports) "coffee" s = Some sc.
Proof.
  exact (search_limited_and_ranked (H := Fixture.ports)
           Fixture.searchCoffee "coffee" eq_refl).
Defined.

(** C5. For every query point, GET /api/stores/near answers with at most 10
    stores of the catalog, each within 10000 metres of the point, in order
    of non-decreasing distance, and each projected to slug, name,
    description, location and photo (with the document id): tags, author,
    creation time and score are absent. *)
Theorem near_within_sorted_limited_projected `{Ports} (st : State)
    (lng lat : string) (x y : Qc) :
  query (request st) !! "lng" = Some lng ->
  query (request st) !! "lat" = Some lat ->
  parseFloat lng = Some x -> parseFloat lat = Some y ->
  exists found : list IStore,
    (handle GET_api_stores_near st).1 =
      Sent (Json ((fun s =>
        {| d_id := _id s; d_name := name s; d_slug := Some (slug s);
           d_description := description s; d_tags := None;
           d_location := Some (location s); d_photo := photo s;
           d_author := None; d_created := None; d_score := None |}) <$> found)) /\
    (length found <= 10)%nat /\
    StronglySorted (fun a b => (metres [x; y] a <= metres [x; y] b)%Qc) found /\
    forall s, s ∈ found ->
      s ∈ stores st /\ (metres [x; y] s <= Q2Qc (inject_Z 10000))%Qc.
Proof.
  intros Hlng Hlat Hx Hy.
  exists (limit 10 (near [x; y] (Q2Qc (inject_Z 10000)) (stores st))).
  unfold handle, initializeRoutes.
  rewrite (runRoute_single _ _ _ _
             (mapStores_run st lng lat x y Hlng Hlat Hx Hy) eq_refl).
  split; [done|]. split; [|split].
  - unfold limit. rewrite length_take. lia.
  - apply StronglySorted_take. unfold near.
    apply (StronglySorted_merge_sort (nearer [x; y])).
  - intros s Hin%elem_of_take. by apply elem_of_near.
Qed.

Lemma near_within_sorted_limited_projected_witness :
  exists found : list IStore,
    (handle (H := Fixture.ports) GET_api_stores_near Fixture.nearLondon).1 =
      Sent (Json ((fun s =>
        {| d_id := _id s; d_name := name s; d_slug := Some (slug s);
           d_description := description s; d_tags := None;
           d_location := Some (location s); d_photo := photo s;
           d_author := None; d_created := None; d_score := None |}) <$> found)) /\
    (length found <= 10)%nat /\
    StronglySorted
      (fun a b => (metres (H := Fixture.ports) [Q2Qc (-1 # 10); Q2Qc (515 # 10)] a
                   <= metres (H := Fixture.ports) [Q2Qc (-1 # 10); Q2Qc (515 # 10)] b)%Qc)
      found /\
    forall s, s ∈ found ->
      s ∈ stores Fixture.nearLondon /\
      (metres (H := Fixture.ports) [Q2Qc (-1 # 10); Q2Qc (515 # 10)] s
       <= Q2Qc (inject_Z 10000))%Qc.
Proof.
  exact (near_within_sorted_limited_projected (H := Fixture.ports)
           Fixture.nearLondon "-0.1" "51.5" (Q2Qc (-1 # 10)) (Q2Qc (515 # 10))
           eq_refl eq_refl eq_refl eq_refl).
Defined.

Example near_london :
  (handle (H := Fixture.ports) GET_api_stores_near Fixture.nearLondon).1 =
  Sent (Json (select "slug name description location photo"
                <$> [Fixture.redSun; Fixture.blueMoon])).
Proof. vm_compute. reflexivity. Qed.

Example search_coffee :
  (fun d => d_id d) <$>
    match (handle (H := Fixture.ports) GET_api_search Fixture.searchCoffee).1 with
    | Sent (Json docs) => docs
    | _ => []
    end = ["s1"; "s3"].
Proof. vm_compute. reflexivity. Qed.

(* ===================================================================== *)
(** ** Tags *)
(* ===================================================================== *)

Section TagFacts.
Context `{Ports}.

Lemma filter_all {A} (l : list A) : List.filter (fun _ => true) l = l.
Proof. induction l as [|a l IH]; [done|]. simpl. by rewrite IH. Qed.

Lemma getStoresByTag_run st :
  let tag := params (request st) !! "tag" in
  getStoresByTag st =
    (Ok Return,
     set_response
       (Some (Render "tag"
          {| title := "Tags"; l_store := None;
             l_stores := List.filter (byTags (tagQueryOf tag)) (stores st);
             l_tag := tag; l_tags := tagCounts (stores st) |})) st).
Proof. reflexivity. Qed.

Lemma elem_of_distinctFrom seen l x :
  x ∈ distinctFrom seen l <-> x ∈ l /\ x ∉ seen.
Proof.
  revert seen. induction l as [|t rest IH]; intros seen; simpl.
  - split; [by intros ?%elem_of_nil|by intros [?%elem_of_nil _]].
  - destruct (decide (t ∈ seen)) as [Hin|Hout].
    + rewrite bool_decide_eq_true_2 by done. rewrite IH, elem_of_cons.
      split; [tauto|]. intros [[->|?] ?]; tauto.
    + rewrite bool_decide_eq_false_2 by done.
      rewrite !elem_of_cons, IH, elem_of_cons.
      destruct (decide (x = t)) as [->|Hne]; tauto.
Qed.

Lemma elem_of_distinct l x : x ∈ distinct l <-> x ∈ l.
Proof.
  unfold distinct. rewrite elem_of_distinctFrom.
  split; [tauto|]. intros Hx. split; [done|]. by intros ?%elem_of_nil.
Qed.

Lemma NoDup_distinctFrom seen l : NoDup (distinctFrom seen l).
Proof.
  revert seen. induction l as [|t rest IH]; intros seen; simpl; [constructor|].
  destruct (bool_decide (t ∈ seen)); [apply IH|].
  constructor; [|apply IH].
  rewrite elem_of_distinctFrom, elem_of_cons. tauto.
Qed.

(** The tag list counts over the whole catalog: a tag is listed when some
    store holds it, with the number of stores of the catalog that hold
    it. *)
Lemma tagCounts_spec db t n :
  {| tag := t; count := n |} ∈ tagCounts db <->
  (exists s, s ∈ db /\ t ∈ tags s) /\
  n = length (List.filter (fun s => bool_decide (t ∈ tags s)) db).
Proof.
  unfold tagCounts. rewrite list_elem_of_fmap. split.
  - intros (t' & [= <- ->] & Ht). split; [|done].
    apply elem_of_distinct, list_elem_of_In, in_concat in Ht
      as (ts & Hts & Ht).
    apply list_elem_of_In, list_elem_of_fmap in Hts as (s & -> & Hs).
    exists s. split; [done|]. by apply list_elem_of_In.
  - intros [(s & Hs & Ht) ->]. exists t. split; [done|].
    apply elem_of_distinct, list_elem_of_In, in_concat.
    exists (tags s). split; [|by apply list_elem_of_In].
    apply list_elem_of_In, list_elem_of_fmap. eauto.
Qed.

Lemma tagCounts_once db : NoDup (tag <$> tagCounts db).
Proof.
  unfold tagCounts, distinct. rewrite <- list_fmap_compose.
  generalize (distinctFrom [] (concat (tags <$> db))) (NoDup_distinctFrom [] (concat (tags <$> db))).
  induction 1 as [|t l Ht _ IH]; [constructor|].
  simpl. constructor; [|exact IH].
  intros (t' & Ht' & Hin)%list_elem_of_fmap. simpl in Ht'. by subst t'.
Qed.

End TagFacts.

(** C7. For every catalog, the tag page (GET /tags and GET /tags/:tag)
    renders the tag list computed over the whole catalog, whatever tag is
    asked for; without a tag, or with the empty tag, it renders all stores
    of the catalog, and with a tag the stores that hold it. *)
Theorem tag_page_lists_catalog_wide_tags `{Ports} (st : State) :
  let tag := params (request st) !! "tag" in
  exists locals : Locals,
    (handle GET_tags_tag st).1 = Sent (Render "tag" locals) /\
    (handle GET_tags st).1 = Sent (Render "tag" locals) /\
    l_tags locals = tagCounts (stores st) /\
    (tag = None \/ tag = Some "" -> l_stores locals = stores st) /\
    (forall t, tag = Some t -> t <> "" ->
       l_stores locals = List.filter (fun s => bool_decide (t ∈ tags s)) (stores st)).
Proof.
  intros tag. eexists. unfold handle, initializeRoutes.
  rewrite (runRoute_single _ _ _ _ (getStoresByTag_run st) eq_refl).
  split; [done|]. split; [done|]. split; [done|]. fold tag. split.
  - intros [->| ->]; apply filter_all.
  - intros t -> Hne. simpl. unfold tagQueryOf.
    by rewrite bool_decide_eq_false_2.
Qed.

(** Filtering by "wifi" shows one store, and the tag list still counts the
    two stores tagged "cafe". *)
Example tag_page_wifi :
  let st := set_request
    {| params := {["tag" := "wifi"]}; query := ∅; body := Fixture.patch;
       user := None; file := None |} Fixture.tagCafe in
  exists locals,
    (handle (H := Fixture.ports) GET_tags_tag st).1 = Sent (Render "tag" locals) /\
    l_stores locals = [Fixture.blueMoon] /\
    l_tags locals = [ {| tag := "cafe"; count := 2 |};
                      {| tag := "wifi"; count := 1 |} ].
Proof. eexists. split; [reflexivity|]. split; vm_compute; reflexivity. Qed.

Example tag_page_all :
  exists locals,
    (handle (H := Fixture.ports) GET_tags Fixture.tagNone).1 = Sent (Render "tag" locals) /\
    l_stores locals = [Fixture.blueMoon; Fixture.redSun; Fixture.farAway] /\
    l_tags locals = [ {| tag := "cafe"; count := 2 |};
                      {| tag := "wifi"; count := 1 |} ].
Proof. eexists. split; [reflexivity|]. split; vm_compute; reflexivity. Qed.

(* ===================================================================== *)
(** ** The arithmetic of jimp's resize *)
(* ===================================================================== *)

Module JimpFacts.
Import Jimp.

(** Rounding to the nearest integer is off by half a unit at most. *)
Lemma nearest_even_close n d :
  0 < d -> - d <= 2 * (nearest_even n d * d - n) <= d.
Proof.
  intros Hd. unfold nearest_even.
  pose proof (Z.div_mod n d ltac:(lia)) as Hdm.
  pose proof (Z.mod_pos_bound n d Hd) as Hm.
  repeat case_match; try apply Z.ltb_lt in H; try apply Z.ltb_ge in H;
    try apply Z.ltb_lt in H0; try apply Z.ltb_ge in H0; nia.
Qed.

Lemma pow2_pos k : 0 < 2 ^ Z.max 0 k.
Proof. apply Z.pow_pos_nonneg; lia. Qed.

(** At the scale that [shift] picks, the fraction has 53 significant
    bits. *)
Lemma shift_normal n d :
  0 < n -> 0 < d ->
  2 ^ 52 * den d (shift n d) <= num n (shift n d) < 2 ^ 53 * den d (shift n d).
Proof.
  intros Hn Hd.
  pose proof (Z.log2_spec n Hn) as Hln. pose proof (Z.log2_spec d Hd) as Hld.
  pose proof (Z.log2_nonneg n) as Hln0. pose proof (Z.log2_nonneg d) as Hld0.
  rewrite !Z.pow_succ_r in Hln, Hld by done.
  unfold shift.
  set (s0 := 52 - (Z.log2 n - Z.log2 d)).
  assert (2 ^ Z.log2 n * 2 ^ Z.max 0 s0
          = 2 ^ 52 * (2 ^ Z.log2 d * 2 ^ Z.max 0 (- s0))) as Hscale.
  { rewrite <- !Z.pow_add_r by lia. f_equal. lia. }
  pose proof (pow2_pos s0) as Ha. pose proof (pow2_pos (- s0)) as Hb.
  assert (2 ^ 51 * den d s0 < num n s0 < 2 ^ 53 * den d s0) as H0.
  { unfold num, den. split; [|nia].
    change (2 ^ 52) with (2 * 2 ^ 51) in Hscale. nia. }
  destruct (Z.ltb_spec (num n s0) (2 ^ 52 * den d s0)) as [Hlt|Hge]; [|lia].
  unfold num, den in *.
  destruct (Z_le_gt_dec 0 s0) as [Hs|Hs].
  - rewrite (Z.max_r 0 (s0 + 1)), (Z.max_l 0 (- (s0 + 1))) by lia.
    rewrite (Z.max_r 0 s0), (Z.max_l 0 (- s0)) in Hlt, H0 by lia.
    rewrite Z.pow_add_r by lia. change (2 ^ 1) with 2.
    change (2 ^ 53) with (2 * 2 ^ 52). change (2 ^ 52) with (2 * 2 ^ 51) at 1.
    lia.
  - rewrite (Z.max_l 0 (s0 + 1)), (Z.max_r 0 (- (s0 + 1))) by lia.
    rewrite (Z.max_l 0 s0), (Z.max_r 0 (- s0)) in Hlt, H0 by lia.
    replace (- s0) with (- (s0 + 1) + 1) in Hlt, H0 by lia.
    rewrite Z.pow_add_r in Hlt, H0 by lia. change (2 ^ 1) with 2 in *.
    change (2 ^ 53) with (2 * 2 ^ 52). change (2 ^ 52) with (2 * 2 ^ 51) at 1.
    lia.
Qed.

(** The double nearest to [n / d]: its significand has 53 bits and it is
    off by half a unit of the last place at most. *)
Lemma double_spec n d :
  0 < n -> 0 < d ->
  let s := (double n d).2 in
  let m := (double n d).1 in
  2 ^ 52 * den d s <= num n s < 2 ^ 53 * den d s /\
  - den d s <= 2 * (m * den d s - num n s) <= den d s /\
  2 ^ 52 <= m <= 2 ^ 53.
Proof.
  intros Hn Hd s m. subst s m. unfold double. cbn [fst snd].
  pose proof (shift_normal n d Hn Hd) as Hs.
  assert (0 < den d (shift n d)) as Hden.
  { unfold den. pose proof (pow2_pos (- shift n d)). nia. }
  split; [exact Hs|]. split; [by apply nearest_even_close|].
  pose proof (nearest_even_close (num n (shift n d)) _ Hden) as Hc.
  set (m := nearest_even _ _) in *. set (D := den d _) in *.
  set (N := num n _) in *.
  split.
  - destruct (Z_le_gt_dec (2 ^ 52) m); [done|].
    assert (m <= 2 ^ 52 - 1) by lia. nia.
  - destruct (Z_le_gt_dec m (2 ^ 53)); [done|].
    assert (2 ^ 53 + 1 <= m) by lia. nia.
Qed.

(** Three rounding errors, each at most half a unit of its scale, add up
    to less than one pixel. *)
Lemma three_roundings (P Q side other X dc da db : Z) :
  0 < P -> 0 < Q -> 0 < side -> 0 < other ->
  0 <= dc < P * 2 -> - side <= da <= side -> - Q <= db <= Q ->
  Q + other < P * Q ->
  2 * (P * Q) * X = (P - dc) * Q * side + db * side + da * other ->
  Z.abs X < side.
Proof.
  intros HP HQ Hs Ho Hdc Hda Hdb Hsmall Hsum.
  assert (- (P * (Q * side)) <= (P - dc) * (Q * side) <= P * (Q * side)) as H1.
  { assert (0 < Q * side) by lia. split.
    - rewrite <- Z.mul_opp_l. apply Z.mul_le_mono_nonneg_r; lia.
    - apply Z.mul_le_mono_nonneg_r; lia. }
  assert (- (Q * side) <= db * side <= Q * side) as H2.
  { split.
    - rewrite <- Z.mul_opp_l. apply Z.mul_le_mono_nonneg_r; lia.
    - apply Z.mul_le_mono_nonneg_r; lia. }
  assert (- (side * other) <= da * other <= side * other) as H3.
  { split.
    - rewrite <- Z.mul_opp_l. apply Z.mul_le_mono_nonneg_r; lia.
    - apply Z.mul_le_mono_nonneg_r; lia. }
  assert ((Q + other) * side < P * Q * side) as H4
    by (apply Z.mul_lt_mono_pos_r; lia).
  assert (0 < P * Q) as HR by lia.
  assert (- (2 * (P * Q) * side) < 2 * (P * Q) * X < 2 * (P * Q) * side) as H5.
  { rewrite Hsum. rewrite <- (Z.mul_assoc (P - dc)). lia. }
  destruct H5 as [H5 H6].
  rewrite <- Z.mul_opp_r in H5.
  apply Z.mul_lt_mono_pos_l in H5; [|lia].
  apply Z.mul_lt_mono_pos_l in H6; [|lia].
  lia.
Qed.

(** The height that [resize] gives to a bitmap is less than one pixel away
    from the height that keeps the aspect ratio exactly. *)
Lemma scaled_within_a_pixel target side other :
  0 < target <= 1024 -> 0 < side -> 0 < other < 2 ^ 31 ->
  Z.abs (scaled target side other * side - target * other) < side.
Proof.
  intros Ht Hw Hh. unfold scaled, times.
  destruct (double_spec target side ltac:(lia) Hw) as (Hn1 & Hc1 & Hm1).
  destruct (double target side) as [m1 s1]. cbn [fst snd] in *.
  assert (42 <= s1) as Hs1.
  { destruct (Z_le_gt_dec 42 s1) as [|Hlt]; [done|]. exfalso.
    assert (2 ^ Z.max 0 s1 <= 2 ^ 41) by (apply Z.pow_le_mono_r; lia).
    assert (1 <= 2 ^ Z.max 0 (- s1)) by (pose proof (pow2_pos (- s1)); lia).
    unfold num, den in Hn1.
    assert (target * 2 ^ Z.max 0 s1 <= 1024 * 2 ^ 41) by nia.
    change (1024 * 2 ^ 41) with (2 ^ 51) in *.
    assert (2 ^ 52 * 1 <= 2 ^ 52 * (side * 2 ^ Z.max 0 (- s1))) by nia.
    change (2 ^ 52) with (2 * 2 ^ 51) in *. lia. }
  unfold num, den in Hn1, Hc1.
  rewrite (Z.max_r 0 s1), (Z.max_l 0 (- s1)), Z.mul_1_r in Hn1, Hc1 by lia.
  assert (0 < other * m1) as HN by nia.
  destruct (double_spec (other * m1) 1 HN ltac:(lia)) as (Hn2 & Hc2 & Hm2).
  destruct (double (other * m1) 1) as [m2 s2]. cbn [fst snd] in *.
  assert (s2 <= 0) as Hs2.
  { destruct (Z_le_gt_dec s2 0) as [|Hgt]; [done|]. exfalso.
    unfold num, den in Hn2.
    rewrite (Z.max_r 0 s2), (Z.max_l 0 (- s2)) in Hn2 by lia.
    assert (2 ^ 1 <= 2 ^ s2) by (apply Z.pow_le_mono_r; lia).
    change (2 ^ 1) with 2 in *. change (2 ^ 0) with 1 in *.
    change (2 ^ 53) with (2 * 2 ^ 52) in *. nia. }
  unfold num, den in Hn2, Hc2.
  rewrite (Z.max_l 0 s2), (Z.max_r 0 (- s2)), Z.mul_1_r, !Z.mul_1_l in Hn2, Hc2
    by lia.
  set (t2 := - s2) in *.
  assert (t2 <= 31) as Ht2.
  { destruct (Z_le_gt_dec t2 31) as [|Hgt]; [done|]. exfalso.
    assert (2 ^ 32 <= 2 ^ t2) by (apply Z.pow_le_mono_r; lia).
    assert (other * m1 < 2 ^ 31 * 2 ^ 53) by nia.
    assert (2 ^ 52 * 2 ^ 32 <= 2 ^ 52 * 2 ^ t2) by nia.
    change (2 ^ 52 * 2 ^ 32) with (2 ^ 31 * 2 ^ 53) in *. lia. }
  unfold mathRound.
  replace (s2 + s1) with (s1 - t2) by lia.
  rewrite (proj2 (Z.leb_le 0 (s1 - t2))) by lia.
  set (s := s1 - t2).
  assert (2 ^ s1 = 2 ^ s * 2 ^ t2) as Hpow.
  { rewrite <- Z.pow_add_r by lia. f_equal. lia. }
  assert (0 < 2 ^ s) as HP by (apply Z.pow_pos_nonneg; lia).
  assert (0 < 2 ^ t2) as HQ by (apply Z.pow_pos_nonneg; lia).
  rewrite Z.pow_add_r by lia. change (2 ^ 1) with 2.
  pose proof (Z.div_mod (2 * m2 + 2 ^ s) (2 ^ s * 2) ltac:(lia)) as Hdm.
  pose proof (Z.mod_pos_bound (2 * m2 + 2 ^ s) (2 ^ s * 2) ltac:(lia)) as Hmod.
  set (h' := (2 * m2 + 2 ^ s) / (2 ^ s * 2)) in *.
  set (dc := (2 * m2 + 2 ^ s) mod (2 ^ s * 2)) in *.
  assert (2 ^ t2 + other < 2 ^ s1) as Hsmall.
  { assert (2 ^ t2 <= 2 ^ 31) by (apply Z.pow_le_mono_r; lia).
    assert (2 ^ 42 <= 2 ^ s1) by (apply Z.pow_le_mono_r; lia).
    change (2 ^ 42) with (2 ^ 31 + 2 ^ 31 + (2 ^ 42 - 2 ^ 32)) in *. lia. }
  set (da := 2 * (m1 * side - target * 2 ^ s1)) in *.
  set (db := 2 * (m2 * 2 ^ t2 - other * m1)) in *.
  assert (2 * 2 ^ s1 * (h' * side - target * other)
          = (2 ^ s - dc) * 2 ^ t2 * side + db * side + da * other) as Hsum.
  { assert (2 * m2 = 2 ^ s * 2 * h' + dc - 2 ^ s) as Hm by lia.
    subst da db. rewrite Hpow.
    replace (2 * (m2 * 2 ^ t2 - other * m1))
      with (2 * m2 * 2 ^ t2 - 2 * other * m1) by ring.
    rewrite Hm. ring. }
  apply (three_roundings (2 ^ s) (2 ^ t2) side other _ dc da db);
    lia.
Qed.

(** On small bitmaps, on bitmaps around the usual sizes of photos and on
    the bitmaps of the examples, the height computed here is the height
    that the doubles of the kernel give. *)
Example scaled_is_binary64 :
  forallb Binary64.agree
    (Binary64.sides 1 1 48 ++ Binary64.sides 1800 100 64
     ++ Binary64.sides 3990 2990 24 ++ Binary64.sides 630 1070 24
     ++ [(2000, 1000); (2000, 1); (1856, 145); (1984, 155); (1601, 1);
         (1599, 1); (1600, 1); (1, 2147483647); (2147483647, 1);
         (2147483647, 2147483647); (3, 2147483647); (4096, 4096)]) = true.
Proof. vm_compute. reflexivity. Qed.

(** What [resize(800, AUTO)] returns when it returns. *)
Lemma resize_800_auto img photo :
  resize 800 AUTO img = Done photo ->
  0 < width img /\ 0 < height img /\ 0 < height photo /\
  photo = {| width := 800;
             height := scaled 800 (width img) (height img) |}.
Proof.
  unfold resize. rewrite (bool_decide_eq_false_2 (800 = AUTO)) by done.
  rewrite (bool_decide_eq_true_2 (AUTO = AUTO)) by done. cbn [andb].
  case_bool_decide as Hok; [|done]. intros [= <-]. cbn [height]. tauto.
Qed.

(** [resize(800, AUTO)] returns exactly when the bitmap has positive sides
    and its height, scaled, rounds to one pixel at least. *)
Lemma resize_800_auto_done img :
  0 < width img -> 0 < height img ->
  0 < scaled 800 (width img) (height img) ->
  resize 800 AUTO img
  = Done {| width := 800; height := scaled 800 (width img) (height img) |}.
Proof.
  intros Hw Hh Hs. unfold resize.
  rewrite (bool_decide_eq_false_2 (800 = AUTO)) by done.
  rewrite (bool_decide_eq_true_2 (AUTO = AUTO)) by done. cbn [andb].
  by rewrite bool_decide_eq_true_2 by lia.
Qed.

End JimpFacts.

(* ===================================================================== *)
(** ** Image ingest *)
(* ===================================================================== *)

Section ResizeFacts.
Context `{Ports}.

Lemma resize_no_file st :
  file (request st) = None -> resize st = (Ok Next, st).
Proof. intros Hf. unfold resize, mbind, M_bind, gets. by rewrite Hf. Qed.

Lemma resize_decode_error st f :
  file (request st) = Some f -> decode (buffer f) = None ->
  resize st = (Throw DecodeError, named f st).
Proof.
  intros Hf Hd.
  unfold resize, jimp_read. open_handler. rewrite Hf. cbn -[Jimp.resize].
  by rewrite Hd.
Qed.

Lemma resize_refused st f img message :
  file (request st) = Some f -> decode (buffer f) = Some img ->
  Jimp.resize 800 Jimp.AUTO img = Jimp.Refused message ->
  resize st = (Throw (Err message), named f st).
Proof.
  intros Hf Hd Hr.
  unfold resize, jimp_read, jimp_resize, jimp_write. open_handler.
  rewrite Hf. cbn -[Jimp.resize]. rewrite Hd. cbn -[Jimp.resize].
  by rewrite Hr.
Qed.

Lemma resize_started st f img photo :
  file (request st) = Some f -> decode (buffer f) = Some img ->
  Jimp.resize 800 Jimp.AUTO img = Jimp.Done photo ->
  resize st = (Ok Next, started f photo st).
Proof.
  intros Hf Hd Hr.
  unfold resize, jimp_read, jimp_resize, jimp_write. open_handler.
  rewrite Hf. cbn -[Jimp.resize]. rewrite Hd. cbn -[Jimp.resize].
  by rewrite Hr.
Qed.


(** An accepted MIME type image/ext has ext as its second component. *)
Lemma split_no_sep sep s :
  (forall c, In c (list_ascii_of_string s) -> c <> sep) -> split sep s = [s].
Proof.
  induction s as [|c s IH]; [done|]. intros Hs. simpl.
  rewrite (proj2 (Ascii.eqb_neq c sep)) by (apply Hs; by left).
  rewrite IH; [done|]. intros c' Hc'. apply Hs. by right.
Qed.

Lemma split_image ext :
  (forall c, In c (list_ascii_of_string ext) -> c <> "/"%char) ->
  split "/" ("image/" +:+ ext) !! 1%nat = Some ext.
Proof.
  intros Hs.
  change ("image/" +:+ ext)
    with (String "i" (String "m" (String "a" (String "g" (String "e"
            (String "/" ext)))))).
  cbn -[String.append]. by rewrite split_no_sep.
Qed.

(** Two names made of a part without a dot, a dot and an extension are
    equal only if the parts before the dot are. *)
Lemma dotted_name_inj a b x y :
  (forall c, In c (list_ascii_of_string a) -> c <> "."%char) ->
  (forall c, In c (list_ascii_of_string b) -> c <> "."%char) ->
  a +:+ "." +:+ x = b +:+ "." +:+ y -> a = b.
Proof.
  revert b. induction a as [|c a IH]; intros [|c' b] Ha Hb.
  - done.
  - change ("" +:+ "." +:+ x) with (String "." x).
    change (String c' b +:+ "." +:+ y) with (String c' (b +:+ "." +:+ y)).
    intros [= <- _]. exfalso. apply (Hb "."%char); [by left|done].
  - change ("" +:+ "." +:+ y) with (String "." y).
    change (String c a +:+ "." +:+ x) with (String c (a +:+ "." +:+ x)).
    intros [= -> _]. exfalso. apply (Ha "."%char); [by left|done].
  - change (String c a +:+ "." +:+ x) with (String c (a +:+ "." +:+ x)).
    change (String c' b +:+ "." +:+ y) with (String c' (b +:+ "." +:+ y)).
    intros [= -> Heq]. f_equal. apply IH; [| |exact Heq].
    + intros c0 Hc0. apply Ha. by right.
    + intros c0 Hc0. apply Hb. by right.
Qed.





End ResizeFacts.

(** The random source of the examples never repeats itself, and its names
    have no dot. *)
Lemma fixture_entropy_inj (i j : nat) :
  "r" +:+ Slug.decimal i = "r" +:+ Slug.decimal j -> i = j.
Proof.
  change ("r" +:+ Slug.decimal i) with (String "r" (Slug.decimal i)).
  change ("r" +:+ Slug.decimal j) with (String "r" (Slug.decimal j)).
  intros [= Heq]. unfold Slug.decimal in Heq.
  assert (Some (Nat.to_uint i) = Some (Nat.to_uint j)) as [= Hu].
  { by rewrite <- !NilEmpty.usu, Heq. }
  by rewrite <- (DecimalNat.Unsigned.of_to i), Hu, DecimalNat.Unsigned.of_to.
Qed.

Lemma digits_no_dot (d : Decimal.uint) (c : ascii) :
  In c (list_ascii_of_string (NilEmpty.string_of_uint d)) -> c <> "."%char.
Proof.
  induction d; simpl; try tauto; intros [<-|Hc]; try discriminate; auto.
Qed.

Lemma fixture_entropy_no_dot (i : nat) (c : ascii) :
  In c (list_ascii_of_string ("r" +:+ Slug.decimal i)) -> c <> "."%char.
Proof.
  change ("r" +:+ Slug.decimal i) with (String "r" (Slug.decimal i)).
  simpl. intros [<-|Hc]; [discriminate|]. by apply (digits_no_dot _ _ Hc).
Qed.

(** A photo of 2000 x 1 decodes, and is not ingested: its height scaled to
    width 800 rounds to no pixel, the resizer refuses it, the middleware
    throws before it starts a write, and the route fails without a store.
    So not every photo that decodes is resized and handed on. *)
Lemma flat_photo_is_not_ingested :
  let st := Fixture.photoCreate in
  file (request st) = Some Fixture.jpeg /\
  decode (Ports := Sample.flatPorts) (buffer Fixture.jpeg)
    = Some {| Jimp.width := 2000; Jimp.height := 1 |} /\
  (resize (H := Sample.flatPorts) st).1
    = Throw (Err "Invalid settings specified for the resizer.") /\
  pending (resize (H := Sample.flatPorts) st).2 = [] /\
  (handle (H := Sample.flatPorts) POST_add st).1
    = Failed (Err "Invalid settings specified for the resizer.") /\
  stores (handle (H := Sample.flatPorts) POST_add st).2 = stores st /\
  pending (settle (handle (H := Sample.flatPorts) POST_add st).2) = [] /\
  uploads (settle (handle (H := Sample.flatPorts) POST_add st).2) = ∅.
Proof. vm_compute. repeat split; reflexivity. Qed.

(** C9. For every attached photo that decodes to a bitmap that jimp can
    resize to width 800, that is, whose height scaled to that width rounds
    to one pixel at least, the resize middleware starts the write of a
    bitmap that is 800 wide and whose height is
    [Math.round(height * (800 / width))], computed in doubles: for a bitmap
    with sides below 2^31 that is less than one pixel away from the height
    that keeps the aspect ratio exactly.  It names the photo by a new draw
    of [uuid.v4] followed by a dot and the format taken from the MIME type,
    puts that name in [request.body.photo] for the store handler, and
    passes control on.  The name differs from every name made from an
    earlier draw, as long as [uuid.v4] does not repeat itself and gives
    names without a dot. *)
Theorem resize_ingests_photo `{Ports}
    (st : State) (f : File) (img photo : Jimp.Image) :
  file (request st) = Some f ->
  decode (buffer f) = Some img ->
  Jimp.resize 800 Jimp.AUTO img = Jimp.Done photo ->
  let filename := entropy st (draws st) +:+ "." +:+ show (split "/" (mimetype f) !! 1%nat) in
  let out := resize st in
  out.1 = Ok Next /\
  Jimp.width photo = 800 /\
  1 <= Jimp.height photo /\
  Jimp.height photo = Jimp.scaled 800 (Jimp.width img) (Jimp.height img) /\
  (Jimp.width img < 2 ^ 31 -> Jimp.height img < 2 ^ 31 ->
     Z.abs (Jimp.height photo * Jimp.width img - 800 * Jimp.height img)
       < Jimp.width img) /\
  b_photo (body (request out.2)) = Some filename /\
  (forall ext, mimetype f = "image/" +:+ ext ->
     (forall c, In c (list_ascii_of_string ext) -> c <> "/"%char) ->
     filename = entropy st (draws st) +:+ "." +:+ ext) /\
  pending out.2 = pending st ++ [(uploadPath filename, photo)] /\
  draws out.2 = S (draws st) /\
  ((forall i j, entropy st i = entropy st j -> i = j) ->
   (forall i c, In c (list_ascii_of_string (entropy st i)) -> c <> "."%char) ->
   forall (k : nat) (ext' : string),
     (k < draws st)%nat -> filename <> entropy st k +:+ "." +:+ ext').
Proof.
  intros Hf Hd Hr filename out.
  destruct (JimpFacts.resize_800_auto img photo Hr) as (Hw & Hh & Hpos & Hphoto).
  subst out. rewrite (resize_started st f img photo Hf Hd Hr). cbn [fst snd].
  split; [done|]. split; [by rewrite Hphoto|]. split; [lia|].
  split; [by rewrite Hphoto|]. split.
  { intros _ Hsmall. rewrite Hphoto. cbn [Jimp.height].
    apply JimpFacts.scaled_within_a_pixel; lia. }
  split; [done|]. split.
  { intros ext Hm Hext. subst filename. by rewrite Hm, split_image. }
  split; [done|]. split; [done|].
  intros Hinj Hdot k ext' Hk Heq. subst filename.
  apply dotted_name_inj in Heq; [|apply Hdot..].
  apply Hinj in Heq. lia.
Qed.

Lemma resize_ingests_photo_witness :
  let st := Sample.fourthPhoto in
  let out := resize (H := Fixture.ports) st in
  out.1 = Ok Next /\
  Jimp.resize 800 Jimp.AUTO {| Jimp.width := 2000; Jimp.height := 1000 |}
    = Jimp.Done {| Jimp.width := 800; Jimp.height := 400 |} /\
  Z.abs (400 * 2000 - 800 * 1000) < 2000 /\
  b_photo (body (request out.2)) = Some "r3.jpeg" /\
  pending out.2
    = [("public/uploads/r3.jpeg", {| Jimp.width := 800; Jimp.height := 400 |})] /\
  draws out.2 = 4%nat /\
  (forall (k : nat) (ext' : string),
     (k < 3)%nat -> "r3.jpeg" <> entropy st k +:+ "." +:+ ext').
Proof.
  intros st out.
  destruct (resize_ingests_photo (H := Fixture.ports) st Fixture.jpeg
              {| Jimp.width := 2000; Jimp.height := 1000 |}
              {| Jimp.width := 800; Jimp.height := 400 |}
              eq_refl eq_refl eq_refl)
    as (Hnext & _ & _ & _ & Hnear & Hname & _ & Hpending & Hdraws & Hfresh).
  split; [exact Hnext|]. split; [reflexivity|].
  split; [apply Hnear; reflexivity|]. split; [exact Hname|].
  split; [exact Hpending|]. split; [exact Hdraws|].
  apply Hfresh.
  - intros i j. apply fixture_entropy_inj.
  - intros i. apply fixture_entropy_no_dot.
Defined.

(** A 2000 x 1000 JPEG: the write of an 800 x 400 bitmap under
    public/uploads is started, and no file is there yet. *)
Example resize_2000x1000 :
  pending (resize (H := Fixture.ports) Fixture.photoCreate).2
  = [("public/uploads/r0.jpeg", {| Jimp.width := 800; Jimp.height := 400 |})] /\
  uploads (resize (H := Fixture.ports) Fixture.photoCreate).2 = ∅.
Proof. vm_compute. split; reflexivity. Qed.

(* ===================================================================== *)
(** ** Create *)
(* ===================================================================== *)

Section CreateFacts.
Context `{Ports}.

(** What [createStore] does to the catalog, the log and the content area:
    nothing when it throws, and otherwise it appends one record, whose slug
    is derived from the submitted name against the slugs in the catalog,
    whose photo is [request.body.photo] and whose author is the user. *)
Lemma createStore_effect st :
  let out := createStore st in
  uploads out.2 = uploads st /\
  ((exists e, out.1 = Throw e /\ log out.2 = log st /\ stores out.2 = stores st) \/
   (exists s n u,
      out.1 = Ok Return /\
      log out.2 = log st ++ [StoreSaved s] /\
      stores out.2 = stores st ++ [s] /\
      b_name (body (request st)) = Some n /\
      user (request st) = Some u /\
      slug s = Slug.newSlug (slug <$> stores st) n /\
      photo s = b_photo (body (request st)) /\
      author s = User._id u /\
      response out.2 = Some (Redirect ("/store/" +:+ slug s)))).
Proof.
  unfold createStore, userId, mbind, M_bind, gets, getBody, setBody, gets, modify.
  simpl. destruct (user (request st)) as [u|] eqn:Hu; simpl; [|eauto 10].
  unfold create, mbind, M_bind, required. simpl.
  destruct (b_name (body (request st))) as [n|] eqn:Hn; simpl; [|eauto 10].
  destruct (decide (n = "")) as [->|Hne]; simpl; [eauto 10|].
  rewrite bool_decide_eq_false_2 by done. simpl.
  destruct (b_location (body (request st))) as [l|] eqn:Hl; simpl; [|eauto 10].
  split; [done|]. right. eexists _, n, u. repeat split.
Qed.



End CreateFacts.

(** C10. The claim is that the resized photo is fully written before the
    store that names it is saved, so that no saved store names a file that
    was not written.  The code does otherwise: [resize] awaits what
    [photo.write] returns, which is the image and not a promise, and calls
    [next()] while the write has only been started; an error of the write
    goes to nobody.  On a create with a JPEG attached and a content area
    that refuses the write, the route answers with the redirect to the new
    store and the saved store names r0.jpeg; no file is in the content area
    when the store is saved, and once the write in flight has failed there
    is still none, while the store stays in the catalog. *)
Theorem store_saved_names_unwritten_photo :
  let st := Sample.fullDisk Fixture.photoCreate in
  let out := handle (H := Fixture.ports) POST_add st in
  out.1 = Sent (Redirect "/store/blue-moon-cafe") /\
  (exists s,
     stores out.2 = [Fixture.redSun; s] /\
     photo s = Some "r0.jpeg" /\
     log out.2 = [StoreSaved s] /\
     stores (settle out.2) = [Fixture.redSun; s] /\
     log (settle out.2) = [StoreSaved s]) /\
  uploads out.2 = ∅ /\
  pending out.2
    = [("public/uploads/r0.jpeg", {| Jimp.width := 800; Jimp.height := 400 |})] /\
  uploads (settle out.2) = ∅ /\
  pending (settle out.2) = [].
Proof.
  vm_compute. split; [reflexivity|]. split; [|repeat split; reflexivity].
  eexists. repeat split; reflexivity.
Qed.

(** The create with a photo on a content area that takes the write: the
    store that names the photo is saved by the route, the file is not in
    the content area when the route ends, and it is once the write in
    flight has landed. *)
Example create_with_photo :
  let out := handle (H := Fixture.ports) POST_add Fixture.photoCreate in
  out.1 = Sent (Redirect "/store/blue-moon-cafe") /\
  (exists s, log out.2 = [StoreSaved s] /\ photo s = Some "r0.jpeg" /\
             log (settle out.2)
             = [StoreSaved s; FileWritten "public/uploads/r0.jpeg"]) /\
  uploads out.2 = ∅ /\
  uploads (settle out.2) !! "public/uploads/r0.jpeg"
    = Some {| Jimp.width := 800; Jimp.height := 400 |}.
Proof.
  vm_compute. split; [reflexivity|]. split; [|split; reflexivity].
  eexists. repeat split; reflexivity.
Qed.

(** The update with a photo, run: the write is started, and the store is
    saved with its old photo. *)
Example update_with_photo :
  let out := handle (H := Fixture.ports) POST_add_id Fixture.photoUpdate in
  out.1 = Sent (Redirect "/stores/s1/edit") /\
  (exists s, log out.2 = [StoreSaved s] /\ photo s = Some "old.png") /\
  pending out.2
    = [("public/uploads/r0.jpeg", {| Jimp.width := 800; Jimp.height := 400 |})].
Proof.
  vm_compute. split; [reflexivity|]. split; [|reflexivity].
  eexists. split; reflexivity.
Qed.

(* ===================================================================== *)
(** ** Slugs of new stores *)
(* ===================================================================== *)

(** A name without a letter or digit has the empty slug, which does not
    match the pattern: the pattern is not met for every store name. *)
Lemma deriveSlug_punctuation_only :
  Slug.deriveSlug "!!!" = "" /\
  Slug.slugPattern (Slug.deriveSlug "!!!") = false /\
  ~ Slug.matches Slug.slugRegex (list_ascii_of_string (Slug.deriveSlug "!!!")).
Proof.
  split; [reflexivity|]. split; [reflexivity|].
  intros Hm%SlugFacts.slugPattern_regex. vm_compute in Hm. discriminate.
Qed.

(** C6. For every store name that holds an ASCII letter or digit,
    [deriveSlug] gives a slug that matches [^[a-z0-9]+(-[a-z0-9]+)*$]; the
    slug a new store gets in a catalog matches the pattern too, is not the
    slug of any store in the catalog, is the derived slug itself when that
    is free, and otherwise is the derived slug followed by -n for the first
    n >= 2 whose suffixed slug is not in use. *)
Theorem new_slug_matches_and_is_unused (slugs : list string) (name : string) :
  Slug.hasAlphanumeric name = true ->
  let candidate := Slug.deriveSlug name in
  let s := Slug.newSlug slugs name in
  Slug.matches Slug.slugRegex (list_ascii_of_string candidate) /\
  Slug.matches Slug.slugRegex (list_ascii_of_string s) /\
  (s ∉ slugs) /\
  (candidate ∉ slugs -> s = candidate) /\
  (candidate ∈ slugs ->
     exists n : nat,
       (2 <= n)%nat /\
       s = candidate +:+ "-" +:+ Slug.decimal n /\
       forall m : nat, (2 <= m < n)%nat ->
         candidate +:+ "-" +:+ Slug.decimal m ∈ slugs).
Proof.
  intros Hn candidate s.
  rewrite SlugFacts.hasAlphanumeric_hasAlnum in Hn.
  pose proof (SlugFacts.deriveSlug_pattern name Hn) as Hc.
  split; [by apply SlugFacts.slugPattern_regex|].
  split; [by apply SlugFacts.slugPattern_regex, SlugFacts.uniqueSlug_pattern|].
  split; [apply SlugFacts.uniqueSlug_free|].
  subst s. unfold Slug.newSlug, Slug.uniqueSlug. fold candidate. split.
  - intros Hfree. destruct (Slug.taken slugs candidate) eqn:E; [|done].
    by apply SlugFacts.taken_spec in E.
  - intros Hin. apply SlugFacts.taken_spec in Hin. rewrite Hin.
    exists (Slug.firstUnused slugs candidate 2 (length slugs)).
    split; [apply SlugFacts.firstUnused_ge_2|]. split; [done|].
    apply SlugFacts.firstUnused_first.
Qed.

Lemma new_slug_matches_and_is_unused_witness :
  Slug.matches Slug.slugRegex (list_ascii_of_string (Slug.deriveSlug "Blue Moon Cafe")) /\
  Slug.matches Slug.slugRegex
    (list_ascii_of_string (Slug.newSlug ["blue-moon-cafe"] "Blue Moon Cafe")) /\
  (Slug.newSlug ["blue-moon-cafe"] "Blue Moon Cafe" ∉ ["blue-moon-cafe"]) /\
  (Slug.deriveSlug "Blue Moon Cafe" ∉ ["blue-moon-cafe"] ->
     Slug.newSlug ["blue-moon-cafe"] "Blue Moon Cafe" = Slug.deriveSlug "Blue Moon Cafe") /\
  (Slug.deriveSlug "Blue Moon Cafe" ∈ ["blue-moon-cafe"] ->
     exists n : nat,
       (2 <= n)%nat /\
       Slug.newSlug ["blue-moon-cafe"] "Blue Moon Cafe"
         = Slug.deriveSlug "Blue Moon Cafe" +:+ "-" +:+ Slug.decimal n /\
       forall m : nat, (2 <= m < n)%nat ->
         Slug.deriveSlug "Blue Moon Cafe" +:+ "-" +:+ Slug.decimal m
           ∈ ["blue-moon-cafe"]).
Proof.
  exact (new_slug_matches_and_is_unused ["blue-moon-cafe"] "Blue Moon Cafe" eq_refl).
Defined.

(** Every slug in use has its numbered successor free at some point:
    with -2 taken as well, the next store gets -3. *)
Example slug_third :
  Slug.newSlug ["blue-moon-cafe"; "blue-moon-cafe-2"] "Blue Moon Cafe"
  = "blue-moon-cafe-3".
Proof. vm_compute. reflexivity. Qed.

(** A store that is created gets a slug that no store of the catalog has:
    two stores created under the same name have different slugs, whatever
    else the requests carry. *)
Lemma created_slug_is_new `{Ports} st st' :
  createStore st = (Ok Return, st') ->
  exists s,
    stores st' = stores st ++ [s] /\
    forall s1, s1 ∈ stores st -> slug s1 <> slug s.
Proof.
  intros Hc.
  destruct (createStore_effect st) as [_ [(e & He & _)|
    (s & n & u & _ & _ & Hs & _ & _ & Hslug & _)]]; rewrite Hc in *; [done|].
  exists s. split; [exact Hs|]. intros s1 Hs1 Heq.
  apply (SlugFacts.uniqueSlug_free (slug <$> stores st) (Slug.deriveSlug n)).
  unfold Slug.newSlug in Hslug. rewrite <- Hslug, <- Heq.
  apply list_elem_of_fmap. eauto.
Qed.

(** The slugs of the catalog stay pairwise different under create. *)
Lemma createStore_keeps_slugs_unique `{Ports} st :
  NoDup (slug <$> stores st) -> NoDup (slug <$> stores (createStore st).2).
Proof.
  intros Hnd.
  destruct (createStore_effect st) as [_ [(e & _ & _ & ->)|
    (s & n & u & He & _ & Hs & _)]]; [done|].
  destruct (createStore st) as [res st'] eqn:Hc. simpl in *. subst res.
  destruct (created_slug_is_new st st' Hc) as (s' & Hs' & Hnew).
  rewrite Hs', fmap_app. apply NoDup_app. split; [done|]. split.
  - intros x (s1 & -> & Hs1)%list_elem_of_fmap Hx.
    apply list_elem_of_fmap in Hx as (s2 & Heq & Hs2).
    apply list_elem_of_singleton in Hs2 as ->. by apply (Hnew s1).
  - apply NoDup_singleton.
Qed.

(** The first store named Blue Moon Cafe gets blue-moon-cafe and no photo,
    the second one blue-moon-cafe-2. *)
Example create_blue_moon_twice :
  let first := handle (H := Fixture.ports) POST_add Fixture.firstCreate in
  let second :=
    handle (H := Fixture.ports) POST_add
      (set_response None (set_request (request Fixture.firstCreate) first.2)) in
  first.1 = Sent (Redirect "/store/blue-moon-cafe") /\
  second.1 = Sent (Redirect "/store/blue-moon-cafe-2") /\
  (fun s => (name s, slug s, photo s)) <$> stores second.2 =
    [ (Some "Blue Moon Cafe", "blue-moon-cafe", None);
      (Some "Blue Moon Cafe", "blue-moon-cafe-2", None) ].
Proof. vm_compute. repeat split. Qed.

(* ===================================================================== *)
(** ** The upload filter and the resize middleware on the POST routes *)
(* ===================================================================== *)

Section UploadFacts.
Context `{Ports}.

Lemma upload_accepts st f :
  file (request st) = Some f -> fileFilter f = Ok true ->
  upload st = (Ok Next, st).
Proof.
  intros Hf Ha. unfold upload. open_handler. by rewrite Hf, Ha.
Qed.

Lemma upload_no_file st : file (request st) = None -> upload st = (Ok Next, st).
Proof. intros Hf. unfold upload. open_handler. by rewrite Hf. Qed.

Lemma fileFilter_accepts f :
  fileFilter f = Ok true <-> String.prefix "image/" (mimetype f) = true.
Proof. unfold fileFilter. destruct (String.prefix _ _); split; done. Qed.

Lemma posts r :
  r = POST_add \/ r = POST_add_id ->
  exists h, initializeRoutes r = [upload; catchErrors resize; catchErrors h] /\
            (h = createStore /\ r = POST_add \/ h = updateStore /\ r = POST_add_id).
Proof. intros [-> | ->]; eauto. Qed.

Lemma split_upto sep s : exists t, split sep s = upto sep s :: t.
Proof.
  induction s as [|c s [t IH]]; [by exists []|]. simpl.
  destruct (Ascii.eqb c sep); [eauto|]. rewrite IH. eauto.
Qed.

Lemma upto_no_sep sep s c :
  In c (list_ascii_of_string (upto sep s)) -> c <> sep.
Proof.
  induction s as [|c0 s IH]; [done|]. simpl.
  destruct (Ascii.eqb c0 sep) eqn:E; [done|]. simpl.
  intros [<-|Hc]; [by apply Ascii.eqb_neq|by apply IH].
Qed.

Lemma prefix_upto sep s : String.prefix (upto sep s) s = true.
Proof.
  induction s as [|c s IH]; [done|]. simpl.
  destruct (Ascii.eqb c sep); [done|]. simpl.
  by destruct (ascii_dec c c).
Qed.

Lemma prefix_rest p s :
  String.prefix p s = true -> exists rest, s = p +:+ rest.
Proof.
  revert s. induction p as [|a p IH]; intros s; [by exists s|].
  destruct s as [|b s]; cbn [String.prefix]; [done|].
  destruct (ascii_dec a b) as [->|]; [|done].
  intros [rest ->]%IH. by exists rest.
Qed.

Lemma prefix_same_start p q s :
  String.prefix q s = true -> String.prefix (p +:+ q) (p +:+ s) = true.
Proof.
  intros Hq. induction p as [|a p IH]; [done|].
  change (String.prefix (String a (p +:+ q)) (String a (p +:+ s)) = true).
  cbn [String.prefix]. by destruct (ascii_dec a a).
Qed.

Lemma post_routes_without_file st :
  file (request st) = None ->
  handle POST_add st = runRoute [catchErrors createStore] st /\
  handle POST_add_id st = runRoute [catchErrors updateStore] st.
Proof.
  intros Hf. unfold handle, initializeRoutes.
  split; cbn [runRoute]; rewrite (upload_no_file st Hf); unfold catchErrors at 1;
    rewrite (resize_no_file st Hf); reflexivity.
Qed.

End UploadFacts.

(** X1. A file whose MIME type does not start with image/ is refused on
    both POST routes with the message of the filter; neither the resize
    middleware nor the store handler runs, and nothing changes. *)
Theorem other_file_types_are_refused `{Ports} (st : State) (f : File) (r : Route) :
  r = POST_add \/ r = POST_add_id ->
  file (request st) = Some f ->
  String.prefix "image/" (mimetype f) = false ->
  handle r st = (Failed (FileTypeError "That file type isn't allowed"), st).
Proof.
  intros Hr Hf Hp. destruct (posts r Hr) as (h & Hh & _).
  unfold handle. rewrite Hh. cbn [runRoute].
  unfold upload, fileFilter. open_handler. by rewrite Hf, Hp.
Qed.

Lemma other_file_types_are_refused_witness :
  handle (H := Fixture.ports) POST_add
    (Sample.withFile (Some Sample.pdf) Fixture.firstCreate)
  = (Failed (FileTypeError "That file type isn't allowed"),
     Sample.withFile (Some Sample.pdf) Fixture.firstCreate).
Proof.
  exact (other_file_types_are_refused (H := Fixture.ports)
           (Sample.withFile (Some Sample.pdf) Fixture.firstCreate) Sample.pdf
           POST_add (or_introl eq_refl) eq_refl eq_refl).
Defined.

(** X2. A file that the filter accepts always has a second component in
    its MIME type: the extension that [resize] reads is the text between
    the first slash and the next one, and is never undefined. *)
Theorem accepted_file_has_extension (f : File) :
  fileFilter f = Ok true ->
  exists ext : string,
    split "/" (mimetype f) !! 1%nat = Some ext /\
    (forall c, In c (list_ascii_of_string ext) -> c <> "/"%char) /\
    String.prefix ("image/" +:+ ext) (mimetype f) = true.
Proof.
  intros Ha%fileFilter_accepts.
  destruct (prefix_rest _ _ Ha) as [rest Hm]. rewrite Hm.
  exists (upto "/" rest). destruct (split_upto "/" rest) as [t Ht].
  split; [|split].
  - change ("image/" +:+ rest)
      with (String "i" (String "m" (String "a" (String "g" (String "e"
              (String "/" rest)))))).
    cbn -[String.append]. by rewrite Ht.
  - apply upto_no_sep.
  - apply prefix_same_start, prefix_upto.
Qed.

Lemma accepted_file_has_extension_witness :
  exists ext : string,
    split "/" (mimetype Fixture.jpeg) !! 1%nat = Some ext /\
    (forall c, In c (list_ascii_of_string ext) -> c <> "/"%char) /\
    String.prefix ("image/" +:+ ext) (mimetype Fixture.jpeg) = true.
Proof. exact (accepted_file_has_extension Fixture.jpeg eq_refl). Defined.

(** X3. Without an attached file the upload filter and the resize
    middleware pass the request on untouched: POST /add is [createStore]
    alone and POST /add/:id is [updateStore] alone. *)
Theorem post_without_file_is_the_store_handler `{Ports} (st : State) :
  file (request st) = None ->
  handle POST_add st = runRoute [catchErrors createStore] st /\
  handle POST_add_id st = runRoute [catchErrors updateStore] st.
Proof.
  apply post_routes_without_file.
Qed.

Lemma post_without_file_is_the_store_handler_witness :
  handle (H := Fixture.ports) POST_add Fixture.firstCreate
    = runRoute [catchErrors (createStore (H := Fixture.ports))] Fixture.firstCreate /\
  handle (H := Fixture.ports) POST_add_id Fixture.firstCreate
    = runRoute [catchErrors (updateStore (H := Fixture.ports))] Fixture.firstCreate.
Proof.
  exact (post_without_file_is_the_store_handler (H := Fixture.ports)
           Fixture.firstCreate eq_refl).
Defined.

(** X4. When the attached photo does not decode, or decodes to a bitmap
    that jimp refuses to resize, the route fails with that error and the
    store handler does not run: no write is started, and catalog, content
    area, log and flashes are as before, although [request.body.photo]
    already names the photo. *)
Theorem failed_ingest_stops_the_route `{Ports}
    (st : State) (f : File) (r : Route) (e : Error) :
  r = POST_add \/ r = POST_add_id ->
  file (request st) = Some f ->
  fileFilter f = Ok true ->
  (decode (buffer f) = None /\ e = DecodeError) \/
  (exists img message,
     decode (buffer f) = Some img /\
     Jimp.resize 800 Jimp.AUTO img = Jimp.Refused message /\
     e = Err message) ->
  let out := handle r st in
  out.1 = Failed e /\
  stores out.2 = stores st /\ uploads out.2 = uploads st /\
  pending out.2 = pending st /\
  log out.2 = log st /\ flashes out.2 = flashes st /\
  response out.2 = response st /\
  b_photo (body (request out.2)) =
    Some (entropy st (draws st) +:+ "." +:+ show (split "/" (mimetype f) !! 1%nat)).
Proof.
  intros Hr Hf Ha Hfail out. subst out. destruct (posts r Hr) as (h & Hh & _).
  unfold handle. rewrite Hh. cbn [runRoute].
  rewrite (upload_accepts st f Hf Ha). generalize (catchErrors h). intros h'.
  unfold catchErrors.
  destruct Hfail as [[Hd ->]|(img & message & Hd & Hre & ->)].
  - by rewrite (resize_decode_error st f Hf Hd).
  - by rewrite (resize_refused st f img message Hf Hd Hre).
Qed.

Lemma failed_ingest_stops_the_route_witness :
  let st := Sample.withFile (Some Sample.broken) Fixture.firstCreate in
  let out := handle (H := Fixture.ports) POST_add st in
  out.1 = Failed DecodeError /\
  stores out.2 = [] /\ uploads out.2 = ∅ /\
  pending out.2 = [] /\
  log out.2 = [] /\ flashes out.2 = [] /\
  response out.2 = None /\
  b_photo (body (request out.2)) = Some "r0.png".
Proof.
  exact (failed_ingest_stops_the_route (H := Fixture.ports)
           (Sample.withFile (Some Sample.broken) Fixture.firstCreate)
           Sample.broken POST_add DecodeError (or_introl eq_refl) eq_refl eq_refl
           (or_introl (conj eq_refl eq_refl))).
Defined.



(** X6. Without an attached file nothing overwrites [request.body.photo]:
    a create that succeeds stores the photo name the form carries, and
    writes no file. *)
Theorem create_without_file_stores_the_photo_of_the_form `{Ports}
    (st : State) (resp : Response) :
  file (request st) = None ->
  (handle POST_add st).1 = Sent resp ->
  exists s,
    stores (handle POST_add st).2 = stores st ++ [s] /\
    photo s = b_photo (body (request st)) /\
    uploads (handle POST_add st).2 = uploads st /\
    log (handle POST_add st).2 = log st ++ [StoreSaved s].
Proof.
  intros Hf. destruct (post_routes_without_file st Hf) as [-> _].
  cbn [runRoute]. unfold catchErrors.
  destruct (createStore_effect st) as [Hupl [(e & He & _)|
    (s & n & u & He & Hl & Hs & _ & _ & _ & Hp & _)]];
    destruct (createStore st) as [res st']; cbn [fst snd] in *; subst res;
    cbn [fst snd]; [done|].
  intros _. exists s. done.
Qed.

Lemma create_without_file_stores_the_photo_of_the_form_witness :
  let st := Sample.withBody Sample.ghostPhoto Fixture.firstCreate in
  exists s,
    stores (handle (H := Fixture.ports) POST_add st).2 = [] ++ [s] /\
    photo s = Some "ghost.png" /\
    uploads (handle (H := Fixture.ports) POST_add st).2 = ∅ /\
    log (handle (H := Fixture.ports) POST_add st).2 = [] ++ [StoreSaved s].
Proof.
  exact (create_without_file_stores_the_photo_of_the_form (H := Fixture.ports)
           (Sample.withBody Sample.ghostPhoto Fixture.firstCreate)
           (Redirect "/store/blue-moon-cafe") eq_refl eq_refl).
Defined.

(** X7. An update whose body has no location fails on the first statement
    of the handler with a TypeError, before the store is looked up: whoever
    sends it and whatever the id, nothing changes. *)
Theorem update_without_location_is_a_type_error `{Ports} (st : State) :
  file (request st) = None ->
  b_location (body (request st)) = None ->
  handle POST_add_id st =
    (Failed (TypeError "Cannot set property 'type' of undefined"), st).
Proof.
  intros Hf Hl. destruct (post_routes_without_file st Hf) as [_ ->].
  cbn [runRoute]. unfold catchErrors.
  by rewrite (updateStore_no_location st Hl).
Qed.

Lemma update_without_location_is_a_type_error_witness :
  handle (H := Fixture.ports) POST_add_id
    (Sample.withBody Sample.noLocation Fixture.ownerUpdate)
  = (Failed (TypeError "Cannot set property 'type' of undefined"),
     Sample.withBody Sample.noLocation Fixture.ownerUpdate).
Proof.
  exact (update_without_location_is_a_type_error (H := Fixture.ports)
           (Sample.withBody Sample.noLocation Fixture.ownerUpdate)
           eq_refl eq_refl).
Defined.

(** X8. A create without a logged-in user fails where the handler reads
    [request.user._id]: no store is built or saved. *)
Theorem create_without_user_is_a_type_error `{Ports} (st : State) :
  file (request st) = None ->
  user (request st) = None ->
  handle POST_add st =
    (Failed (TypeError "Cannot read property '_id' of undefined"), st).
Proof.
  intros Hf Hu. destruct (post_routes_without_file st Hf) as [-> _].
  cbn [runRoute]. unfold catchErrors, createStore, userId. open_handler.
  by rewrite Hu.
Qed.

Lemma create_without_user_is_a_type_error_witness :
  handle (H := Fixture.ports) POST_add (Sample.withUser None Fixture.firstCreate)
  = (Failed (TypeError "Cannot read property '_id' of undefined"),
     Sample.withUser None Fixture.firstCreate).
Proof.
  exact (create_without_user_is_a_type_error (H := Fixture.ports)
           (Sample.withUser None Fixture.firstCreate) eq_refl eq_refl).
Defined.

(* ===================================================================== *)
(** ** The edit form, the store page and the read routes *)
(* ===================================================================== *)

Section ReadFacts.
Context `{Ports}.

Lemma editStore_unknown st :
  List.find (byId (params (request st) !! "id")) (stores st) = None ->
  editStore st = (Ok Return, st).
Proof. intros Hf. unfold editStore. open_handler. cbv beta. by rewrite Hf. Qed.

Lemma editStore_anonymous st store :
  List.find (byId (params (request st) !! "id")) (stores st) = Some store ->
  user (request st) = None ->
  editStore st =
    (Throw (TypeError "Cannot read property '_id' of undefined"), st).
Proof.
  intros Hf Hu. unfold editStore, confirmOwner. open_handler. cbv beta.
  rewrite Hf. cbv beta iota. by rewrite Hu.
Qed.

Lemma editStore_user st store u :
  List.find (byId (params (request st) !! "id")) (stores st) = Some store ->
  user (request st) = Some u ->
  editStore st =
    if bool_decide (author store = User._id u)
    then (Ok Return,
          set_response
            (Some (Render "editStore"
               {| title := "Edit " +:+ show (name store); l_store := Some store;
                  l_stores := []; l_tag := None; l_tags := [] |})) st)
    else (Throw (Err "You must own a store in order to edit it!"), st).
Proof.
  intros Hf Hu. unfold editStore, confirmOwner. open_handler. cbv beta.
  rewrite Hf. cbv beta iota. rewrite Hu.
  by destruct (bool_decide (author store = User._id u)).
Qed.

Lemma getStoreBySlug_unknown st :
  List.find (bySlug (params (request st) !! "slug")) (stores st) = None ->
  getStoreBySlug st = (Ok Next, st).
Proof. intros Hf. unfold getStoreBySlug. open_handler. cbv beta. by rewrite Hf. Qed.

Lemma getStoreBySlug_found st store :
  List.find (bySlug (params (request st) !! "slug")) (stores st) = Some store ->
  getStoreBySlug st =
    (Ok Return,
     set_response
       (Some (Render "store"
          {| title := "Welcome to " +:+ show (name store); l_store := Some store;
             l_stores := []; l_tag := None; l_tags := [] |})) st).
Proof. intros Hf. unfold getStoreBySlug. open_handler. cbv beta. by rewrite Hf. Qed.

(** A new last document is the one a condition finds when no earlier
    document satisfies it. *)
Lemma find_last cond (db : list IStore) s :
  (forall d, d ∈ db -> cond d = false) -> cond s = true ->
  List.find cond (db ++ [s]) = Some s.
Proof.
  intros Hdb Hs. induction db as [|d rest IH]; simpl; [by rewrite Hs|].
  rewrite (Hdb d) by (by left). apply IH. intros d' Hd'. apply Hdb. by right.
Qed.

Lemma answers_catchErrors h : answers h -> answers (catchErrors h).
Proof. intros Hh st. rewrite catchErrors_state. apply Hh. Qed.

Lemma editStore_answers : answers editStore.
Proof.
  intros st.
  destruct (List.find (byId (params (request st) !! "id")) (stores st))
    as [store|] eqn:Hf.
  - destruct (user (request st)) as [u|] eqn:Hu.
    + rewrite (editStore_user st store u Hf Hu).
      by destruct (bool_decide (author store = User._id u)).
    + by rewrite (editStore_anonymous st store Hf Hu).
  - by rewrite (editStore_unknown st Hf).
Qed.

Lemma getStoreBySlug_answers : answers getStoreBySlug.
Proof.
  intros st.
  destruct (List.find (bySlug (params (request st) !! "slug")) (stores st))
    as [store|] eqn:Hf.
  - by rewrite (getStoreBySlug_found st store Hf).
  - by rewrite (getStoreBySlug_unknown st Hf).
Qed.

Lemma getStoresByTag_answers : answers getStoresByTag.
Proof. intros st. by rewrite getStoresByTag_run. Qed.

Lemma searchStores_answers : answers searchStores.
Proof.
  intros st. destruct (query (request st) !! "q") as [q|] eqn:Hq.
  - by rewrite (searchStores_run st q Hq).
  - unfold searchStores. open_handler. by rewrite Hq.
Qed.

Lemma mapStores_answers : answers mapStores.
Proof.
  intros st. unfold mapStores. open_handler. cbv beta iota.
  by destruct (mapM id _).
Qed.

Lemma getStores_answers : answers getStores.
Proof. by intros st. Qed.

Lemma mapPage_answers : answers mapPage.
Proof. by intros st. Qed.

End ReadFacts.

(** X9. Every GET route of the controller only answers: whatever the
    request and whatever the outcome, the catalog, the content area, the
    log of writes, the flash messages, the random source and the request
    itself are as before; at most the response differs. *)
Theorem get_routes_only_answer `{Ports} (r : Route) (st : State) :
  isGet r = true ->
  set_response None (handle r st).2 = set_response None st.
Proof.
  intros Hr. unfold handle.
  apply (runRoute_keeps (fun st => set_response None st)).
  destruct r; try discriminate; repeat constructor; apply answers_catchErrors;
    auto using editStore_answers, getStoreBySlug_answers, getStoresByTag_answers,
      searchStores_answers, mapStores_answers, getStores_answers, mapPage_answers.
Qed.

Lemma get_routes_only_answer_witness :
  set_response None (handle (H := Fixture.ports) GET_tags_tag Fixture.tagCafe).2
  = set_response None Fixture.tagCafe.
Proof.
  exact (get_routes_only_answer (H := Fixture.ports) GET_tags_tag Fixture.tagCafe
           eq_refl).
Defined.

(** X10. For a logged-in user the edit form is rendered exactly when the
    user is the author of the store: the owner gets the view editStore
    with the store and the title "Edit <name>", every other user gets the
    ownership error. *)
Theorem edit_form_is_for_the_owner_only `{Ports}
    (st : State) (store : IStore) (u : User.IUserModel) :
  List.find (byId (params (request st) !! "id")) (stores st) = Some store ->
  user (request st) = Some u ->
  (handle GET_stores_id_edit st).1 =
    if bool_decide (author store = User._id u)
    then Sent (Render "editStore"
                 {| title := "Edit " +:+ show (name store); l_store := Some store;
                    l_stores := []; l_tag := None; l_tags := [] |})
    else Failed (Err "You must own a store in order to edit it!").
Proof.
  intros Hf Hu. unfold handle, initializeRoutes. cbn [runRoute].
  unfold catchErrors. rewrite (editStore_user st store u Hf Hu).
  by destruct (bool_decide (author store = User._id u)).
Qed.

Lemma edit_form_is_for_the_owner_only_witness :
  (handle (H := Fixture.ports) GET_stores_id_edit Fixture.ownerUpdate).1 =
    if bool_decide (author Fixture.blueMoon = User._id Fixture.alice)
    then Sent (Render "editStore"
                 {| title := "Edit " +:+ show (name Fixture.blueMoon);
                    l_store := Some Fixture.blueMoon;
                    l_stores := []; l_tag := None; l_tags := [] |})
    else Failed (Err "You must own a store in order to edit it!").
Proof.
  exact (edit_form_is_for_the_owner_only (H := Fixture.ports)
           Fixture.ownerUpdate Fixture.blueMoon Fixture.alice eq_refl eq_refl).
Defined.

(** X11. The edit form under an id that identifies no store: the handler
    returns without a response, without an error and without calling
    [next], for every user and also without one; the request is never
    answered. *)
Theorem edit_unknown_id_is_never_answered `{Ports} (st : State) :
  List.find (byId (params (request st) !! "id")) (stores st) = None ->
  response st = None ->
  handle GET_stores_id_edit st = (Hung, st).
Proof.
  intros Hf Hr. unfold handle, initializeRoutes. cbn [runRoute].
  unfold catchErrors. rewrite (editStore_unknown st Hf).
  unfold finished. by rewrite Hr.
Qed.

Lemma edit_unknown_id_is_never_answered_witness :
  handle (H := Fixture.ports) GET_stores_id_edit Fixture.unknownUpdate
  = (Hung, Fixture.unknownUpdate).
Proof.
  exact (edit_unknown_id_is_never_answered (H := Fixture.ports)
           Fixture.unknownUpdate eq_refl eq_refl).
Defined.

(** X12. The edit route has no login guard: for an existing store and no
    logged-in user, the ownership check itself fails with a TypeError
    where it reads [user._id], and not with the ownership message. *)
Theorem edit_without_user_is_a_type_error `{Ports} (st : State) (store : IStore) :
  List.find (byId (params (request st) !! "id")) (stores st) = Some store ->
  user (request st) = None ->
  handle GET_stores_id_edit st =
    (Failed (TypeError "Cannot read property '_id' of undefined"), st).
Proof.
  intros Hf Hu. unfold handle, initializeRoutes. cbn [runRoute].
  unfold catchErrors. by rewrite (editStore_anonymous st store Hf Hu).
Qed.

Lemma edit_without_user_is_a_type_error_witness :
  handle (H := Fixture.ports) GET_stores_id_edit
    (Sample.withUser None Fixture.ownerUpdate)
  = (Failed (TypeError "Cannot read property '_id' of undefined"),
     Sample.withUser None Fixture.ownerUpdate).
Proof.
  exact (edit_without_user_is_a_type_error (H := Fixture.ports)
           (Sample.withUser None Fixture.ownerUpdate) Fixture.blueMoon
           eq_refl eq_refl).
Defined.

(** X13. The store page under a slug that no store has, or without a slug:
    the handler calls [next], the route ends in the not-found handler that
    app.ts installs after the controllers, and the state is as before. *)
Theorem unknown_slug_ends_in_not_found `{Ports} (st : State) :
  List.find (bySlug (params (request st) !! "slug")) (stores st) = None ->
  handle GET_store_slug st = (NotFound, st).
Proof.
  intros Hf. unfold handle, initializeRoutes. cbn [runRoute].
  unfold catchErrors. by rewrite (getStoreBySlug_unknown st Hf).
Qed.

Lemma unknown_slug_ends_in_not_found_witness :
  handle (H := Fixture.ports) GET_store_slug
    (Sample.withParams {["slug" := "no-such-store"]} Fixture.tagCafe)
  = (NotFound, Sample.withParams {["slug" := "no-such-store"]} Fixture.tagCafe).
Proof.
  exact (unknown_slug_ends_in_not_found (H := Fixture.ports)
           (Sample.withParams {["slug" := "no-such-store"]} Fixture.tagCafe)
           eq_refl).
Defined.

(* ===================================================================== *)
(** ** Create and update, followed through *)
(* ===================================================================== *)

(** X14. A create that succeeds appends exactly one store to the catalog,
    authored by the sender whatever author the form carried, and redirects
    to /store/<slug>; the store page under that slug then shows the store
    just created, whatever the catalog held before. *)
Theorem created_store_is_shown_at_the_redirect `{Ports} (st : State) :
  (createStore st).1 = Ok Return ->
  let st' := (createStore st).2 in
  exists s u,
    user (request st) = Some u /\ author s = User._id u /\
    stores st' = stores st ++ [s] /\
    response st' = Some (Redirect ("/store/" +:+ slug s)) /\
    forall st2,
      stores st2 = stores st' ->
      params (request st2) !! "slug" = Some (slug s) ->
      (handle GET_store_slug st2).1 =
        Sent (Render "store"
                {| title := "Welcome to " +:+ show (name s); l_store := Some s;
                   l_stores := []; l_tag := None; l_tags := [] |}).
Proof.
  intros Hok st'.
  destruct (createStore_effect st) as [_ [(e & He & _)|
    (s & n & u & _ & _ & Hs & _ & Hu & _ & _ & Ha & Hr)]]; [congruence|].
  destruct (created_slug_is_new st st') as (s' & Hs' & Hnew).
  { subst st'. destruct (createStore st) as [res st1]. simpl in *. by subst. }
  fold st' in Hs, Hr. rewrite Hs in Hs'. apply app_inj_tail in Hs' as [_ <-].
  exists s, u. repeat split; [done..|].
  intros st2 Hdb Hp. unfold handle, initializeRoutes. cbn [runRoute].
  unfold catchErrors. rewrite (getStoreBySlug_found st2 s); [done|].
  rewrite Hp, Hdb, Hs. apply find_last.
  - intros d Hd. unfold bySlug. apply bool_decide_eq_false_2.
    intros [= Heq]. by apply (Hnew d).
  - unfold bySlug. by apply bool_decide_eq_true_2.
Qed.

Lemma created_store_is_shown_at_the_redirect_witness :
  let st' := (createStore (H := Fixture.ports) Fixture.firstCreate).2 in
  exists s u,
    user (request Fixture.firstCreate) = Some u /\ author s = User._id u /\
    stores st' = stores Fixture.firstCreate ++ [s] /\
    response st' = Some (Redirect ("/store/" +:+ slug s)) /\
    forall st2,
      stores st2 = stores st' ->
      params (request st2) !! "slug" = Some (slug s) ->
      (handle (H := Fixture.ports) GET_store_slug st2).1 =
        Sent (Render "store"
                {| title := "Welcome to " +:+ show (name s); l_store := Some s;
                   l_stores := []; l_tag := None; l_tags := [] |}).
Proof.
  exact (created_store_is_shown_at_the_redirect (H := Fixture.ports)
           Fixture.firstCreate eq_refl).
Defined.

Section FrameFacts.
Context `{Ports}.

Lemma untouched_replace_found id db s s' :
  List.find (byId id) db = Some s -> untouched s' = untouched s ->
  untouched <$> replaceDoc s' db = untouched <$> db.
Proof.
  intros Hf Hu. assert (_id s' = _id s) as Hid by (by injection Hu).
  induction db as [|d rest IH]; [done|].
  simpl in Hf. simpl. unfold byId at 1 in Hf.
  destruct (decide (id = Some (_id d))) as [E|E].
  - rewrite bool_decide_eq_true_2 in Hf by done. injection Hf as ->.
    rewrite bool_decide_eq_true_2 by done. simpl. congruence.
  - rewrite bool_decide_eq_false_2 in Hf by done.
    pose proof (find_byId_id _ _ _ Hf) as Hs.
    rewrite bool_decide_eq_false_2 by congruence.
    simpl. f_equal. by apply IH.
Qed.

Lemma others_replace id db s' :
  id = Some (_id s') -> others id (replaceDoc s' db) = others id db.
Proof.
  intros Hid. unfold others. induction db as [|d rest IH]; [done|]. simpl.
  destruct (decide (_id d = _id s')) as [E|E].
  - rewrite bool_decide_eq_true_2 by done. simpl.
    rewrite !bool_decide_eq_true_2; [done|congruence|congruence].
  - rewrite bool_decide_eq_false_2 by done. simpl. f_equal. apply IH.
Qed.

Lemma updateStore_frame st :
  let st' := (updateStore st).2 in
  params (request st') = params (request st) /\
  untouched <$> stores st' = untouched <$> stores st /\
  others (params (request st) !! "id") (stores st')
    = others (params (request st) !! "id") (stores st).
Proof.
  destruct (updateStore_cases st)
    as [(e & -> & _)|(l & Hl & [[-> _]|[(e & ->)|(oldStore & Hf & ->)]])];
    try done.
  split; [done|]. split.
  - by apply (untouched_replace_found (params (request st) !! "id") _ oldStore).
  - apply others_replace. exact (find_byId_id _ _ _ Hf).
Qed.

End FrameFacts.

(** X15. Whatever the request and its outcome, POST /add/:id changes at
    most the name, the description and the address of stores with the id of
    the route: tags, photo, coordinates, location type, creation time, slug,
    author and id of every store are as before, the catalog has the same
    stores in the same order, and a store with another id is unchanged in
    every field. *)
Theorem update_touches_three_fields_of_one_store `{Ports} (st : State) :
  let out := handle POST_add_id st in
  untouched <$> stores out.2 = untouched <$> stores st /\
  length (stores out.2) = length (stores st) /\
  forall (i : nat) (d : IStore),
    stores st !! i = Some d ->
    params (request st) !! "id" <> Some (_id d) ->
    stores out.2 !! i = Some d.
Proof.
  intros out.
  assert ((fun st => (params (request st), untouched <$> stores st,
                      others (params (request st) !! "id") (stores st))) out.2
          = (fun st => (params (request st), untouched <$> stores st,
                        others (params (request st) !! "id") (stores st))) st)
    as Hkeep.
  { subst out. unfold handle.
    apply (runRoute_keeps
             (fun st => (params (request st), untouched <$> stores st,
                         others (params (request st) !! "id") (stores st)))).
    repeat constructor; intros st0.
    - by rewrite upload_state.
    - by rewrite catchErrors_state, resize_keeps_stores, resize_keeps_params.
    - rewrite catchErrors_state.
      destruct (updateStore_frame st0) as (-> & -> & Ho). by rewrite Ho. }
  simpl in Hkeep. injection Hkeep as Hp Hu Ho. rewrite Hp in Ho.
  split; [done|]. split.
  - apply (f_equal length) in Hu. by rewrite !length_fmap in Hu.
  - intros i d Hd Hne. apply (f_equal (fun l => l !! i)) in Ho.
    unfold others in Ho. rewrite !list_lookup_fmap, Hd in Ho. simpl in Ho.
    rewrite bool_decide_eq_false_2 in Ho by done.
    destruct (stores out.2 !! i) as [d'|]; [|done]. simpl in Ho.
    destruct (bool_decide _); [done|]. by injection Ho as ->.
Qed.

(** X16. After an update by the owner went through, the edit form that the
    redirect leads to shows the store as it was just saved, under the title
    "Edit" and the new name. *)
Theorem edit_form_after_update_shows_the_update `{Ports}
    (st : State) (l : BodyLocation) (oldStore : IStore) (u : User.IUserModel) :
  file (request st) = None ->
  b_location (body (request st)) = Some l ->
  List.find (byId (params (request st) !! "id")) (stores st) = Some oldStore ->
  validName (b_name (body (request st))) ->
  user (request st) = Some u ->
  author oldStore = User._id u ->
  let out := handle POST_add_id st in
  let newStore := sanitizeStore (assigned (body (request st)) oldStore) in
  out.1 = Sent (Redirect ("/stores/" +:+ _id oldStore +:+ "/edit")) /\
  (handle GET_stores_id_edit out.2).1 =
    Sent (Render "editStore"
            {| title := "Edit " +:+ show (name newStore);
               l_store := Some newStore;
               l_stores := []; l_tag := None; l_tags := [] |}).
Proof.
  intros Hfile Hl Hf Hn Hu Ha out newStore. subst out.
  destruct (post_routes_without_file st Hfile) as [_ ->].
  cbn [runRoute]. unfold catchErrors.
  rewrite (updateStore_found st l oldStore Hl Hf Hn). cbn [fst snd].
  split; [done|].
  unfold handle, initializeRoutes. cbn [runRoute]. unfold catchErrors.
  rewrite (editStore_user (updated l oldStore st) newStore u).
  - rewrite bool_decide_eq_true_2; done.
  - simpl. by apply (find_replaceDoc _ _ oldStore).
  - exact Hu.
Qed.

Lemma edit_form_after_update_shows_the_update_witness :
  let out := handle (H := Fixture.ports) POST_add_id Fixture.ownerUpdate in
  let newStore :=
    sanitizeStore (H := Fixture.ports)
      (assigned (body (request Fixture.ownerUpdate)) Fixture.blueMoon) in
  out.1 = Sent (Redirect ("/stores/" +:+ _id Fixture.blueMoon +:+ "/edit")) /\
  (handle (H := Fixture.ports) GET_stores_id_edit out.2).1 =
    Sent (Render "editStore"
            {| title := "Edit " +:+ show (name newStore);
               l_store := Some newStore;
               l_stores := []; l_tag := None; l_tags := [] |}).
Proof.
  apply (edit_form_after_update_shows_the_update (H := Fixture.ports)
           Fixture.ownerUpdate
           {| bl_type := None; bl_coordinates := []; bl_address := Some "9 New Rd" |}
           Fixture.blueMoon Fixture.alice).
  - reflexivity.
  - reflexivity.
  - reflexivity.
  - exists "Green Star". split; [reflexivity|discriminate].
  - reflexivity.
  - reflexivity.
Defined.

(* ===================================================================== *)
(** ** The cut of the search and of the proximity query *)
(* ===================================================================== *)

(** X17. The search leaves out a matching store only when it already
    answers with 5, and then only stores that score no higher than every
    store it answers with: the answer and the stores left out together are
    exactly the matching stores of the catalog, each once per document. *)
Theorem search_answers_with_the_best `{Ports} (st : State) (q : string) :
  query (request st) !! "q" = Some q ->
  exists results rest : list (IStore * Qc),
    (handle GET_api_search st).1 =
      Sent (Json ((fun d => toDoc (Some d.2) d.1) <$> results)) /\
    results ++ rest ≡ₚ textSearch q (stores st) /\
    (forall a b, a ∈ results -> b ∈ rest -> (b.2 <= a.2)%Qc) /\
    (rest <> [] -> length results = 5%nat).
Proof.
  intros Hq.
  exists (take 5 (sortByScore (textSearch q (stores st)))),
         (drop 5 (sortByScore (textSearch q (stores st)))).
  unfold handle, initializeRoutes.
  rewrite (runRoute_single _ _ _ _ (searchStores_run st q Hq) eq_refl).
  split; [done|]. split; [|split].
  - rewrite take_drop. apply merge_sort_Permutation.
  - intros a b Ha Hb.
    pose proof (StronglySorted_merge_sort byScore (textSearch q (stores st))) as Hs.
    fold sortByScore in Hs.
    rewrite <- (take_drop 5 (sortByScore _)) in Hs.
    exact (StronglySorted_app_1_elem_of _ _ _ a b Hs Ha Hb).
  - intros Hrest. rewrite length_take.
    destruct (decide (5 <= length (sortByScore (textSearch q (stores st)))))%nat
      as [Hle|Hgt]; [lia|].
    exfalso. apply Hrest, drop_ge. lia.
Qed.

Lemma search_answers_with_the_best_witness :
  exists results rest : list (IStore * Qc),
    (handle (H := Fixture.ports) GET_api_search Fixture.searchCoffee).1 =
      Sent (Json ((fun d => toDoc (Some d.2) d.1) <$> results)) /\
    results ++ rest ≡ₚ
      textSearch (H := Fixture.ports) "coffee" (stores Fixture.searchCoffee) /\
    (forall a b, a ∈ results -> b ∈ rest -> (b.2 <= a.2)%Qc) /\
    (rest <> [] -> length results = 5%nat).
Proof.
  apply (search_answers_with_the_best (H := Fixture.ports)
           Fixture.searchCoffee "coffee").
  reflexivity.
Defined.

(** X18. The proximity query leaves out a store within 10000 metres only
    when it already answers with 10, and then only stores that are no
    nearer than every store it answers with: the answer and the stores left
    out together are exactly the stores of the catalog within the
    distance. *)
Theorem near_answers_with_the_nearest `{Ports} (st : State)
    (lng lat : string) (x y : Qc) :
  query (request st) !! "lng" = Some lng ->
  query (request st) !! "lat" = Some lat ->
  parseFloat lng = Some x -> parseFloat lat = Some y ->
  exists found rest : list IStore,
    (handle GET_api_stores_near st).1 =
      Sent (Json (select "slug name description location photo" <$> found)) /\
    found ++ rest ≡ₚ
      List.filter
        (fun s => bool_decide (metres [x; y] s <= Q2Qc (inject_Z 10000))%Qc)
        (stores st) /\
    (forall a b, a ∈ found -> b ∈ rest ->
       (metres [x; y] a <= metres [x; y] b)%Qc) /\
    (rest <> [] -> length found = 10%nat).
Proof.
  intros Hlng Hlat Hx Hy.
  set (sorted := near [x; y] (Q2Qc (inject_Z 10000)) (stores st)).
  exists (take 10 sorted), (drop 10 sorted).
  unfold handle, initializeRoutes.
  rewrite (runRoute_single _ _ _ _
             (mapStores_run st lng lat x y Hlng Hlat Hx Hy) eq_refl).
  split; [done|]. split; [|split].
  - rewrite take_drop. apply merge_sort_Permutation.
  - intros a b Ha Hb.
    pose proof (StronglySorted_merge_sort (nearer [x; y])
      (List.filter
         (fun s => bool_decide (metres [x; y] s <= Q2Qc (inject_Z 10000))%Qc)
         (stores st))) as Hs.
    fold (near [x; y] (Q2Qc (inject_Z 10000)) (stores st)) in Hs. fold sorted in Hs.
    rewrite <- (take_drop 10 sorted) in Hs.
    exact (StronglySorted_app_1_elem_of _ _ _ a b Hs Ha Hb).
  - intros Hrest. rewrite length_take.
    destruct (decide (10 <= length sorted))%nat as [Hle|Hgt]; [lia|].
    exfalso. apply Hrest, drop_ge. lia.
Qed.

Lemma near_answers_with_the_nearest_witness :
  exists found rest : list IStore,
    (handle (H := Fixture.ports) GET_api_stores_near Fixture.nearLondon).1 =
      Sent (Json (select "slug name description location photo" <$> found)) /\
    found ++ rest ≡ₚ
      List.filter
        (fun s => bool_decide
           (metres (H := Fixture.ports) [Q2Qc (-1 # 10); Q2Qc (515 # 10)] s
            <= Q2Qc (inject_Z 10000))%Qc)
        (stores Fixture.nearLondon) /\
    (forall a b, a ∈ found -> b ∈ rest ->
       (metres (H := Fixture.ports) [Q2Qc (-1 # 10); Q2Qc (515 # 10)] a
        <= metres (H := Fixture.ports) [Q2Qc (-1 # 10); Q2Qc (515 # 10)] b)%Qc) /\
    (rest <> [] -> length found = 10%nat).
Proof.
  apply (near_answers_with_the_nearest (H := Fixture.ports)
           Fixture.nearLondon "-0.1" "51.5").
  - reflexivity.
  - reflexivity.
  - reflexivity.
  - reflexivity.
Defined.

(* ===================================================================== *)
(** ** Registration *)
(* ===================================================================== *)

Module UserFacts.
Import UserController.

Section Validators.
Variable isEmail : string -> bool.
Variable normalizeEmail : option string -> option string.

Lemma sanitizeEmail_other b k :
  k <> "email" -> sanitizeEmail normalizeEmail b !! k = b !! k.
Proof.
  intros Hk. unfold sanitizeEmail.
  destruct (normalizeEmail (b !! "email")).
  - by rewrite lookup_insert_ne.
  - by rewrite lookup_delete_ne.
Qed.

Lemma check_nil ok message : check ok message = [] <-> ok = true.
Proof. by destruct ok. Qed.

Lemma validationErrors_nil b :
  validationErrors isEmail normalizeEmail b = [] <->
  notEmpty (b !! "name") = true /\
  isEmail (toString (b !! "email")) = true /\
  exists p, b !! "password" = Some p /\ p <> "" /\
            b !! "password-confirm" = Some p.
Proof.
  unfold validationErrors.
  rewrite !(sanitizeEmail_other b) by done.
  rewrite !app_nil, !check_nil. unfold notEmpty, equals, toString.
  rewrite !negb_true_iff, !bool_decide_eq_false, !bool_decide_eq_true.
  split.
  - intros (Hn & He & Hp & Hc & Heq). split; [done|]. split; [done|].
    destruct (b !! "password-confirm") as [c|]; simpl in *; [|done].
    exists c. rewrite Heq in Hp. simpl in Hp. done.
  - intros (Hn & He & p & Hp & Hne & Hc). rewrite Hp, Hc. simpl. done.
Qed.

End Validators.
End UserFacts.

(** X19. [validateRegister] calls [next] exactly when the name is not
    empty, the email passes [isEmail], the password is not empty and the
    confirmation is the password (the check that the confirmation is not
    blank never decides); then the flash messages are left alone.
    Otherwise it renders the register view with the pending flashes and at
    least one error message, empties the flash store, and does not call
    [next], so that [register] is not reached.  In both cases the body
    keeps every field but the normalized email. *)
Theorem register_form_is_checked
    (isEmail : string -> bool) (normalizeEmail : option string -> option string)
    (s : UserController.Session) :
  let b := UserController.form s in
  let b' := UserController.sanitizeEmail normalizeEmail b in
  let valid :=
    UserController.notEmpty (b !! "name") = true /\
    isEmail (UserController.toString (b !! "email")) = true /\
    exists p, b !! "password" = Some p /\ p <> "" /\
              b !! "password-confirm" = Some p in
  (forall k, k <> "email" -> b' !! k = b !! k) /\
  (valid ->
     UserController.validateRegister isEmail normalizeEmail s =
       (UserController.Continued,
        {| UserController.form := b';
           UserController.flashStore := UserController.flashStore s |})) /\
  (~ valid ->
     exists errors,
       errors <> [] /\
       UserController.validateRegister isEmail normalizeEmail s =
         (UserController.Rendered "register" b'
            (UserController.flashAll "error" errors (UserController.flashStore s))
            "Register",
          {| UserController.form := b'; UserController.flashStore := ∅ |})).
Proof.
  intros b b' valid. split; [|split].
  - intros k Hk. by apply UserFacts.sanitizeEmail_other.
  - intros Hv%(UserFacts.validationErrors_nil isEmail normalizeEmail).
    unfold UserController.validateRegister. fold b. by rewrite Hv.
  - intros Hv. exists (UserController.validationErrors isEmail normalizeEmail b).
    assert (UserController.validationErrors isEmail normalizeEmail b <> [])
      as Hne by (by intros ?%UserFacts.validationErrors_nil).
    split; [done|]. unfold UserController.validateRegister. fold b.
    by destruct (UserController.validationErrors isEmail normalizeEmail b).
Qed.

(** A form with a bad email and a blank confirmation: three messages, in
    the order of the checks. *)
Example register_bad_form :
  UserController.validationErrors Sample.isEmail Sample.normalizeEmail Sample.badForm
  = [ "That Email is not valid!"; "Confirmed Password cannot be blank!";
      "Oops! Your passwords do not match" ].
Proof. vm_compute. reflexivity. Qed.

Example register_good_form :
  (UserController.validateRegister Sample.isEmail Sample.normalizeEmail
     {| UserController.form := Sample.goodForm;
        UserController.flashStore := ∅ |}).1
  = UserController.Continued.
Proof. vm_compute. reflexivity. Qed.
